(** * A verification development of [src/cli/inverted_index.py]

    The [InvertedIndex] class of the keyword-search CLI: index
    construction ([build] / [__add_document]), persistence ([save] /
    [load]), the term-frequency accessor and the BM25 ranking engine.

    Modelling choices:
    - Python [dict] and [set] are stdpp [gmap] and [gset]; [Counter[str]]
      is a [gmap string nat] read with default 0.
    - Python floats are modelled by real numbers ([R]); [math.log] is
      [ln], raising [ValueError] outside its domain; float division
      raises [ZeroDivisionError] on a zero divisor.
    - Exceptions are values of [PyError]; fallible methods return a
      [Result]. The spec's InvalidTermError is the code's [ValueError],
      its NotFoundError the code's [FileNotFoundError].
    - The tokenizer is injected at construction time
      ([tokenize_fn]); it is a Section variable below. *)

From Stdlib Require Import Reals Lra Sorted Permutation Ascii.
From stdpp Require Import base gmap strings list fin_maps sorting.

Open Scope R_scope.

(** ** Exceptions and the result monad *)

Inductive PyError :=
  | ValueError
  | ZeroDivisionError
  | FileNotFoundError
  | UnpicklingError.

Inductive Result (A : Type) :=
  | Ok (a : A)
  | Err (e : PyError).
Arguments Ok {A} a.
Arguments Err {A} e.

Global Instance result_ret : MRet Result := fun A a => Ok a.
Global Instance result_bind : MBind Result := fun A B f m =>
  match m with Ok a => f a | Err e => Err e end.

(** Python's true division on floats. *)
Definition py_div (x y : R) : Result R :=
  if Req_dec_T y 0 then Err ZeroDivisionError else Ok (x / y).

(** [math.log]: a [ValueError] ("math domain error") for [x <= 0]. *)
Definition py_log (x : R) : Result R :=
  if Rle_dec x 0 then Err ValueError else Ok (ln x).

(** ** Data model *)

(** [class Movie(TypedDict)]. *)
Record Movie := mkMovie {
  id : Z;
  title : string;
  description : string
}.

(** The four structures owned by an [InvertedIndex]
    ([self.index], [self.docmap], [self.term_frequencies],
    [self.doc_lengths]). *)
Record InvertedIndex := mkIndex {
  index : gmap string (gset Z);
  docmap : gmap Z Movie;
  term_frequencies : gmap Z (gmap string nat);
  doc_lengths : gmap Z nat
}.

(** [InvertedIndex.__init__]: four empty dictionaries. *)
Definition empty_index : InvertedIndex := mkIndex ∅ ∅ ∅ ∅.

(** ** A concrete tokenizer: [utils.tokenize]

    [clean_text] deletes [string.punctuation] and lowercases;
    [str.split()] splits on runs of whitespace. A Rocq [string] is a
    sequence of code points 0..255. *)
Module Utils.

Definition punctuation : string :=
  String (Ascii.ascii_of_nat 34) "!#$%&'()*+,-./:;<=>?@[\]^_`{|}~".

(** [str.lower] on the code points 0..255: A-Z and the Latin-1
    capitals (0xC0-0xDE except 0xD7) move up by 32. *)
Definition lower_ascii (c : ascii) : ascii :=
  let n := Ascii.nat_of_ascii c in
  if ((65 <=? n)%nat && (n <=? 90)%nat) || ((192 <=? n)%nat && (n <=? 222)%nat && negb (n =? 215)%nat)
  then Ascii.ascii_of_nat (n + 32) else c.

(** The whitespace of [str.split()] among the code points 0..255:
    0x09-0x0D, 0x1C-0x20, 0x85 and 0xA0. *)
Definition is_space (c : ascii) : bool :=
  let n := Ascii.nat_of_ascii c in
  ((9 <=? n)%nat && (n <=? 13)%nat) || ((28 <=? n)%nat && (n <=? 32)%nat) ||
  (n =? 133)%nat || (n =? 160)%nat.

Fixpoint contains_char (c : ascii) (s : string) : bool :=
  match s with
  | EmptyString => false
  | String c' s' => Ascii.eqb c c' || contains_char c s'
  end.

Fixpoint clean_text (s : string) : string :=
  match s with
  | EmptyString => EmptyString
  | String c s' =>
      if contains_char c punctuation then clean_text s'
      else String (lower_ascii c) (clean_text s')
  end.

(** [str.split()] with no separator: [cur] is the word being read. *)
Fixpoint split_ws (cur : string) (s : string) : list string :=
  match s with
  | EmptyString => if String.eqb cur EmptyString then [] else [cur]
  | String c s' =>
      if is_space c then
        (if String.eqb cur EmptyString then [] else [cur]) ++ split_ws EmptyString s'
      else split_ws (String.append cur (String c EmptyString)) s'
  end.

Definition tokenize (text : string) : list string := split_ws EmptyString (clean_text text).

End Utils.

(** ** Python helpers *)

(** [sum(d.values())] over a dictionary of counts. *)
Definition sum_values {K} `{Countable K} (m : gmap K nat) : nat :=
  map_fold (fun _ v acc => (v + acc)%nat) 0%nat m.

(** [l[:stop]]: a negative [stop] counts from the end of the list. *)
Definition py_slice_to {A} (l : list A) (stop : Z) : list A :=
  if Z.leb 0 stop then firstn (Z.to_nat stop) l
  else firstn (Z.to_nat (Z.of_nat (length l) + stop)) l.

(** [sorted(items, key=lambda kv: kv[1], reverse=True)]: a stable sort
    by decreasing score. An item goes after every item already placed
    whose score is at least its own, so equal scores keep their order. *)
Fixpoint insert_desc (x : Z * R) (l : list (Z * R)) : list (Z * R) :=
  match l with
  | [] => [x]
  | y :: l' => if Rlt_dec (snd y) (snd x) then x :: l else y :: insert_desc x l'
  end.

Definition sort_desc (l : list (Z * R)) : list (Z * R) :=
  fold_left (fun acc x => insert_desc x acc) l [].

(** [os.path.join(a, b)] (posixpath) for two components. *)
Definition py_join (a b : string) : string :=
  match b with
  | String "/"%char _ => b
  | _ =>
      if String.eqb a EmptyString then b
      else if String.eqb (String.substring (String.length a - 1) 1 a) "/" then
        String.append a b
      else String.append a (String.append "/" b)
  end.

Section Index.

(** [self._tokenize], injected by the constructor. *)
Variable tokenize_fn : string -> list string.

(** ** Index Builder *)

(** One iteration of the [for tok in tokens] loop of [__add_document]:
    [self.index[tok].add(doc_id)] (creating the set when absent) and
    [self.term_frequencies[doc_id][tok] += 1]. *)
Definition add_token (doc_id : Z) (st : InvertedIndex) (tok : string) : InvertedIndex :=
  let c := default ∅ (term_frequencies st !! doc_id) in
  mkIndex
    (<[tok := {[doc_id]} ∪ default ∅ (index st !! tok)]> (index st))
    (docmap st)
    (<[doc_id := <[tok := (default 0%nat (c !! tok) + 1)%nat]> c]> (term_frequencies st))
    (doc_lengths st).

(** [InvertedIndex.__add_document]. *)
Definition add_document (st : InvertedIndex) (doc_id : Z) (text : string) : InvertedIndex :=
  let tokens := tokenize_fn text in
  let st1 :=
    match term_frequencies st !! doc_id with
    | Some _ => st
    | None => mkIndex (index st) (docmap st)
                (<[doc_id := ∅]> (term_frequencies st)) (doc_lengths st)
    end in
  let st2 := fold_left (add_token doc_id) tokens st1 in
  mkIndex (index st2) (docmap st2) (term_frequencies st2)
    (<[doc_id := (default 0%nat (doc_lengths st2 !! doc_id) + length tokens)%nat]>
       (doc_lengths st2)).

(** [f"{movie['title']} {movie['description']}"]. *)
Definition movie_text (m : Movie) : string :=
  String.append (title m) (String.append " " (description m)).

(** One iteration of the loop of [build]. *)
Definition build_step (st : InvertedIndex) (m : Movie) : InvertedIndex :=
  let doc_id := id m in
  let st1 := mkIndex (index st) (<[doc_id := m]> (docmap st))
               (term_frequencies st) (doc_lengths st) in
  add_document st1 doc_id (movie_text m).

(** [InvertedIndex.build]. *)
Definition build (st : InvertedIndex) (movies : list Movie) : InvertedIndex :=
  fold_left build_step movies st.

(** The tokens [build] feeds to [__add_document] for the document id
    [d], over all entries of [movies] with that id, in order. *)
Definition build_tokens (movies : list Movie) (d : Z) : list string :=
  concat (map (fun m => tokenize_fn (movie_text m))
              (List.filter (fun m => bool_decide (id m = d)) movies)).

(** The last entry of [movies] with the id [d]: the one [docmap] keeps. *)
Definition last_movie (movies : list Movie) (d : Z) : option Movie :=
  last (List.filter (fun m => bool_decide (id m = d)) movies).

(** Index states reachable by [build] calls from a fresh index. *)
Inductive reachable : InvertedIndex -> Prop :=
  | reachable_fresh : reachable empty_index
  | reachable_build st movies : reachable st -> reachable (build st movies).

(** ** Accessors and BM25 *)

(** [InvertedIndex.get_documents]: [sorted(...)] is a merge sort. *)
Definition get_documents (st : InvertedIndex) (term : string) : list Z :=
  match tokenize_fn term with
  | [] => []
  | tok :: _ => merge_sort Z.le (elements (default ∅ (index st !! tok)))
  end.

(** [InvertedIndex.get_frequency]. An empty [Counter] is falsy, which
    gives 0 as the lookup of a missing token would. *)
Definition get_frequency (st : InvertedIndex) (doc_id : Z) (term : string) : Result nat :=
  match tokenize_fn term with
  | [tok] =>
      match term_frequencies st !! doc_id with
      | None => Ok 0%nat
      | Some counter =>
          if decide (counter = ∅) then Ok 0%nat else Ok (default 0%nat (counter !! tok))
      end
  | _ => Err ValueError
  end.

(** [len(self.docmap)]. *)
Definition doc_count (st : InvertedIndex) : nat := size (docmap st).

(** [len(self.index.get(token, set()))]. *)
Definition doc_freq (st : InvertedIndex) (token : string) : nat :=
  size (default ∅ (index st !! token)).

(** [InvertedIndex.get_bm25_idf]. [n - df] is an integer subtraction. *)
Definition get_bm25_idf (st : InvertedIndex) (term : string) : Result R :=
  match tokenize_fn term with
  | [token] =>
      let n := doc_count st in
      let df := doc_freq st token in
      if Nat.eq_dec n 0%nat then Ok 0
      else py_log ((IZR (Z.of_nat n - Z.of_nat df) + 0.5) / (INR df + 0.5) + 1.0)
  | _ => Err ValueError
  end.

(** [InvertedIndex.__get_avg_doc_length]; the division is by
    [len(self.doc_lengths)], which is not zero on that branch. *)
Definition get_avg_doc_length (st : InvertedIndex) : R :=
  if decide (doc_lengths st = ∅) then 0
  else INR (sum_values (doc_lengths st)) / INR (size (doc_lengths st)).

(** [InvertedIndex.get_bm25_tf]; a [ValueError] of [get_frequency] is
    re-raised as a [ValueError]. The [print] is not modelled. The
    division [document_length / avg_doc_length] happens only when
    [avg_doc_length <> 0]. *)
Definition get_bm25_tf (st : InvertedIndex) (doc_id : Z) (term : string) (k1 b : R)
    : Result R :=
  tf ← get_frequency st doc_id term;
  let avg_doc_length := get_avg_doc_length st in
  let document_length := default 0%nat (doc_lengths st !! doc_id) in
  if Nat.eq_dec document_length 0%nat then Ok 0
  else if Req_dec_T avg_doc_length 0 then Ok 0
  else
    let length_norm := 1 - b + b * (INR document_length / avg_doc_length) in
    py_div (INR tf * (k1 + 1)) (INR tf + k1 * length_norm).

(** [InvertedIndex.bm25]. *)
Definition bm25 (st : InvertedIndex) (doc_id : Z) (term : string) (k1 b : R) : Result R :=
  idf ← get_bm25_idf st term;
  tf ← get_bm25_tf st doc_id term k1 b;
  Ok (idf * tf).

(** The inner loop of [bm25_search]: [total += self.bm25(doc_id, tok, k1, b)]. *)
Fixpoint sum_scores (st : InvertedIndex) (doc_id : Z) (tokens : list string) (k1 b : R)
    (total : R) : Result R :=
  match tokens with
  | [] => Ok total
  | tok :: rest =>
      s ← bm25 st doc_id tok k1 b;
      sum_scores st doc_id rest k1 b (total + s)
  end.

(** The aggregate score of a document: the loop started at [0.0]. *)
Definition aggregate_score (st : InvertedIndex) (tokens : list string) (k1 b : R)
    (doc_id : Z) : Result R :=
  sum_scores st doc_id tokens k1 b 0.

(** The outer loop of [bm25_search], in candidate order: the entries
    of [scores], in insertion order. *)
Fixpoint score_candidates (st : InvertedIndex) (tokens : list string) (k1 b : R)
    (cands : list Z) : Result (list (Z * R)) :=
  match cands with
  | [] => Ok []
  | doc_id :: rest =>
      total ← aggregate_score st tokens k1 b doc_id;
      scores ← score_candidates st tokens k1 b rest;
      Ok (if Rlt_dec 0 total then (doc_id, total) :: scores else scores)
  end.

(** [candidates |= self.index.get(tok, set())] for every query token. *)
Definition candidate_set (st : InvertedIndex) (tokens : list string) : gset Z :=
  fold_left (fun c tok => c ∪ default ∅ (index st !! tok)) tokens ∅.

(** [InvertedIndex.bm25_search]. Python iterates over the candidate
    set in its hash order; [elements] stands for that order. *)
Definition bm25_search (st : InvertedIndex) (query : string) (k1 b : R) (limit : Z)
    : Result (list (Z * R)) :=
  let tokens := tokenize_fn query in
  match tokens with
  | [] => Ok []
  | _ =>
      let candidates := candidate_set st tokens in
      if decide (candidates = ∅) then Ok []
      else
        scores ← score_candidates st tokens k1 b (elements candidates);
        Ok (py_slice_to (sort_desc scores) limit)
  end.

End Index.

(** ** Persistence *)

(** A pickled structure. [pickle] round-trips dictionaries, sets,
    [Counter]s, integers and strings exactly; a file is one pickled
    object of one of the four structure types. *)
Inductive Blob :=
  | BIndex (v : gmap string (gset Z))
  | BDocmap (v : gmap Z Movie)
  | BTermFrequencies (v : gmap Z (gmap string nat))
  | BDocLengths (v : gmap Z nat).

(** The file system: path to file contents. [os.makedirs(...,
    exist_ok=True)] is modelled as always succeeding. *)
Abbreviation FileStore := (gmap string Blob).

Definition index_path (cache_dir : string) := py_join cache_dir "index.pkl".
Definition docmap_path (cache_dir : string) := py_join cache_dir "docmap.pkl".
Definition frequencies_path (cache_dir : string) := py_join cache_dir "term_frequencies.pkl".
Definition doc_lengths_path (cache_dir : string) := py_join cache_dir "doc_lengths.pkl".

(** [InvertedIndex.save]: four writes, in order. *)
Definition save (st : InvertedIndex) (cache_dir : string) (fs : FileStore) : FileStore :=
  <[doc_lengths_path cache_dir := BDocLengths (doc_lengths st)]>
  (<[frequencies_path cache_dir := BTermFrequencies (term_frequencies st)]>
  (<[docmap_path cache_dir := BDocmap (docmap st)]>
  (<[index_path cache_dir := BIndex (index st)]> fs))).

(** The four reads of [load]. Python would bind an object of another
    type without complaint; the model reports it as [UnpicklingError].
    Each attribute is assigned as soon as it is read. *)
Definition read_index (fs : FileStore) (p : string) (st : InvertedIndex)
    : InvertedIndex * option PyError :=
  match fs !! p with
  | Some (BIndex v) => (mkIndex v (docmap st) (term_frequencies st) (doc_lengths st), None)
  | Some _ => (st, Some UnpicklingError)
  | None => (st, Some FileNotFoundError)
  end.

Definition read_docmap (fs : FileStore) (p : string) (st : InvertedIndex)
    : InvertedIndex * option PyError :=
  match fs !! p with
  | Some (BDocmap v) => (mkIndex (index st) v (term_frequencies st) (doc_lengths st), None)
  | Some _ => (st, Some UnpicklingError)
  | None => (st, Some FileNotFoundError)
  end.

Definition read_term_frequencies (fs : FileStore) (p : string) (st : InvertedIndex)
    : InvertedIndex * option PyError :=
  match fs !! p with
  | Some (BTermFrequencies v) => (mkIndex (index st) (docmap st) v (doc_lengths st), None)
  | Some _ => (st, Some UnpicklingError)
  | None => (st, Some FileNotFoundError)
  end.

Definition read_doc_lengths (fs : FileStore) (p : string) (st : InvertedIndex)
    : InvertedIndex * option PyError :=
  match fs !! p with
  | Some (BDocLengths v) => (mkIndex (index st) (docmap st) (term_frequencies st) v, None)
  | Some _ => (st, Some UnpicklingError)
  | None => (st, Some FileNotFoundError)
  end.

(** Run the next read unless an exception is pending. *)
Definition then_read (r : InvertedIndex * option PyError)
    (f : InvertedIndex -> InvertedIndex * option PyError) : InvertedIndex * option PyError :=
  match r with
  | (st, None) => f st
  | (st, Some e) => (st, Some e)
  end.

(** [os.path.exists(path)]. *)
Definition path_exists (fs : FileStore) (p : string) : bool :=
  match fs !! p with Some _ => true | None => false end.

(** [InvertedIndex.load]: the object after the call, and the exception
    raised, if any. *)
Definition load (cache_dir : string) (fs : FileStore) (st : InvertedIndex)
    : InvertedIndex * option PyError :=
  let paths := [index_path cache_dir; docmap_path cache_dir;
                frequencies_path cache_dir; doc_lengths_path cache_dir] in
  if negb (forallb (path_exists fs) paths) then (st, Some FileNotFoundError)
  else
    then_read (read_index fs (index_path cache_dir) st) (fun st =>
    then_read (read_docmap fs (docmap_path cache_dir) st) (fun st =>
    then_read (read_term_frequencies fs (frequencies_path cache_dir) st) (fun st =>
    read_doc_lengths fs (doc_lengths_path cache_dir) st))).

(** ** The commands of [keyword_search_cli.py]

    Each command below starts after a successful [idx.load(cache_dir)];
    [st] is the loaded index and [tokenize_fn] is [tok], the tokenizer
    the index is constructed with, which the commands also apply to
    their arguments ([stemming(..., stopwords_path)]). *)

Section Cli.

Variable tokenize_fn : string -> list string.

(** The inner loop of the [search] command over [doc_ids]: an id not in
    [seen] is recorded and appended to [results]; the loop breaks once
    [results] holds 5 ids. *)
Fixpoint search_inner (doc_ids : list Z) (seen : gset Z) (results : list Z)
    : gset Z * list Z :=
  match doc_ids with
  | [] => (seen, results)
  | doc_id :: rest =>
      if decide (doc_id ∈ seen) then search_inner rest seen results
      else
        let results' := results ++ [doc_id] in
        if Nat.eq_dec (length results') 5%nat then ({[doc_id]} ∪ seen, results')
        else search_inner rest ({[doc_id]} ∪ seen) results'
  end.

(** The outer loop over the query tokens, with its own [break]. *)
Fixpoint search_outer (st : InvertedIndex) (query_tokens : list string) (seen : gset Z)
    (results : list Z) : list Z :=
  match query_tokens with
  | [] => results
  | qtok :: rest =>
      let '(seen', results') := search_inner (get_documents tokenize_fn st qtok) seen results in
      if Nat.eq_dec (length results') 5%nat then results'
      else search_outer st rest seen' results'
  end.

(** The ids the [search] command prints the titles of, in order. *)
Definition search_command (st : InvertedIndex) (query : string) : list Z :=
  search_outer st (tokenize_fn query) ∅ [].

(** What a command prints: a value, an error message, or nothing
    because an exception escapes. *)
Inductive Shown :=
  | ShownValue (v : R)
  | ErrorMessage
  | Raised (e : PyError).

Definition shown_of (r : Result R) : Shown :=
  match r with Ok v => ShownValue v | Err e => Raised e end.

(** The [idf] command. *)
Definition idf_command (st : InvertedIndex) (term : string) : Shown :=
  match tokenize_fn term with
  | [term_tok] =>
      let n := doc_count st in
      let df := doc_freq st term_tok in
      if Nat.eqb df 0%nat || Nat.eqb n 0%nat then ShownValue 0
      else shown_of (q ← py_div (INR (n + 1)%nat) (INR (df + 1)%nat); py_log q)
  | _ => ErrorMessage
  end.

(** The [tfidf] command: [get_frequency] first, whose [ValueError] is
    caught, then its own single-word check. *)
Definition tfidf_command (st : InvertedIndex) (doc_id : Z) (term : string) : Shown :=
  match get_frequency tokenize_fn st doc_id term with
  | Err ValueError => ErrorMessage
  | Err e => Raised e
  | Ok tf =>
      match tokenize_fn term with
      | [term_tok] =>
          let n := doc_count st in
          let df := doc_freq st term_tok in
          shown_of (q ← py_div (INR (n + 1)%nat) (INR (df + 1)%nat);
                    idf ← py_log q;
                    Ok (INR tf * idf))
      | _ => ErrorMessage
      end
  end.

End Cli.

(** ** The scenario corpus of the spec *)

Definition scenario_movies : list Movie :=
  [mkMovie 1 "red fox" "runs"; mkMovie 2 "red dog" "sleeps"; mkMovie 3 "blue fox" "sleeps"].

Definition scenario_index : InvertedIndex := build Utils.tokenize empty_index scenario_movies.

Definition single_index : InvertedIndex :=
  build Utils.tokenize empty_index [mkMovie 1 "red" "fox"].

(** ** Derived views used in the statements *)

(** The posting set of a token, [self.index.get(tok, set())]. *)
Definition posting (st : InvertedIndex) (tok : string) : gset Z :=
  default ∅ (index st !! tok).

(** [self.term_frequencies[doc_id][tok]] read with default 0. *)
Definition tf_count (st : InvertedIndex) (doc_id : Z) (tok : string) : nat :=
  match term_frequencies st !! doc_id with
  | Some c => default 0%nat (c !! tok)
  | None => 0%nat
  end.

(** Every document id stored anywhere is a key of the catalog. *)
Definition contained (st : InvertedIndex) : Prop :=
  (forall t x, x ∈ posting st t -> x ∈ dom (docmap st)) /\
  dom (term_frequencies st) ⊆ dom (docmap st) /\
  dom (doc_lengths st) ⊆ dom (docmap st).

(** Frequency consistency: a document's length entry is the sum of its
    term-frequency entry, and one exists exactly when the other does. *)
Definition freq_consistent (st : InvertedIndex) : Prop :=
  forall x, sum_values <$> term_frequencies st !! x = doc_lengths st !! x.





(** ** Evaluation on the scenario of the spec *)

Example tokenize_ex :
  Utils.tokenize "The Red-Fox, runs!  home" = ["the"; "redfox"; "runs"; "home"].
Proof. reflexivity. Qed.

Example scenario_lookup : get_documents Utils.tokenize scenario_index "fox" = [1%Z; 3%Z].
Proof. vm_compute. reflexivity. Qed.

Example scenario_frequency : get_frequency Utils.tokenize scenario_index 1 "red" = Ok 1%nat.
Proof. vm_compute. reflexivity. Qed.

Example scenario_two_tokens : get_frequency Utils.tokenize scenario_index 42 "red fox" = Err ValueError.
Proof. vm_compute. reflexivity. Qed.

(** * Proofs *)

(** ** Sums of counters *)

Lemma sum_values_insert_fresh (m : gmap string nat) k v :
  m !! k = None -> sum_values (<[k:=v]> m) = (v + sum_values m)%nat.
Proof.
  intros Hk. unfold sum_values.
  rewrite map_fold_insert_L; [done | | done].
  intros; lia.
Qed.

Lemma sum_values_split (m : gmap string nat) k :
  sum_values m = (default 0%nat (m !! k) + sum_values (delete k m))%nat.
Proof.
  destruct (m !! k) as [v|] eqn:Hk; simpl.
  - rewrite <- (insert_delete_id m k v Hk) at 1.
    apply sum_values_insert_fresh, lookup_delete_eq.
  - by rewrite delete_id.
Qed.

Lemma sum_values_incr (c : gmap string nat) tok :
  sum_values (<[tok := (default 0%nat (c !! tok) + 1)%nat]> c) = S (sum_values c).
Proof.
  rewrite <- insert_delete_eq, sum_values_insert_fresh by apply lookup_delete_eq.
  rewrite (sum_values_split c tok). lia.
Qed.

Lemma sum_values_empty : sum_values (∅ : gmap string nat) = 0%nat.
Proof. reflexivity. Qed.

(** ** The stable descending sort and the slice *)

Definition score_desc (p q : Z * R) : Prop := snd q <= snd p.

Lemma insert_desc_perm x l : Permutation (insert_desc x l) (x :: l).
Proof.
  induction l as [|y l IH]; simpl; [done|].
  destruct (Rlt_dec (snd y) (snd x)); [done|].
  rewrite IH. apply perm_swap.
Qed.

Lemma insert_desc_sorted x l : Sorted score_desc l -> Sorted score_desc (insert_desc x l).
Proof.
  induction l as [|y l IH]; simpl; intros Hs.
  - repeat constructor.
  - destruct (Rlt_dec (snd y) (snd x)) as [Hlt|Hge].
    + constructor; [exact Hs|]. constructor. unfold score_desc. lra.
    + apply Sorted_inv in Hs as [Hl Hhd]. constructor; [by apply IH|].
      destruct l as [|z l]; simpl.
      * constructor. unfold score_desc. lra.
      * destruct (Rlt_dec (snd z) (snd x)); constructor; unfold score_desc.
        -- lra.
        -- by inversion Hhd.
Qed.

Lemma sort_desc_aux l acc :
  Sorted score_desc acc ->
  Sorted score_desc (fold_left (fun acc x => insert_desc x acc) l acc) /\
  Permutation (fold_left (fun acc x => insert_desc x acc) l acc) (l ++ acc).
Proof.
  revert acc; induction l as [|x l IH]; intros acc Hs; simpl; [done|].
  destruct (IH (insert_desc x acc) (insert_desc_sorted x acc Hs)) as [Hs' Hp].
  split; [done|]. rewrite Hp, insert_desc_perm. symmetry. apply Permutation_middle.
Qed.

Lemma sort_desc_sorted l : Sorted score_desc (sort_desc l).
Proof. apply sort_desc_aux. constructor. Qed.

Lemma sort_desc_perm l : Permutation (sort_desc l) l.
Proof. unfold sort_desc. rewrite (proj2 (sort_desc_aux l [] (Sorted_nil _))). by rewrite app_nil_r. Qed.

Lemma py_slice_to_length {A} (l : list A) limit :
  (0 <= limit)%Z -> (length (py_slice_to l limit) <= Z.to_nat limit)%nat.
Proof.
  intros Hl. unfold py_slice_to. apply Z.leb_le in Hl. rewrite Hl.
  rewrite length_firstn. lia.
Qed.

Section Proofs.

Variable tokenize_fn : string -> list string.

(** ** Effects of one token of [__add_document] *)

Lemma add_token_docmap d st tok : docmap (add_token d st tok) = docmap st.
Proof. reflexivity. Qed.

Lemma add_token_doc_lengths d st tok : doc_lengths (add_token d st tok) = doc_lengths st.
Proof. reflexivity. Qed.

Lemma add_token_posting d st tok t x :
  x ∈ posting (add_token d st tok) t <-> x ∈ posting st t \/ (x = d /\ t = tok).
Proof.
  unfold posting, add_token; simpl.
  destruct (decide (t = tok)) as [->|Hne].
  - rewrite lookup_insert_eq; simpl. set_solver.
  - rewrite lookup_insert_ne by congruence. naive_solver.
Qed.

Lemma add_token_tf_other d st tok x :
  x <> d -> term_frequencies (add_token d st tok) !! x = term_frequencies st !! x.
Proof. intros Hne. unfold add_token; simpl. by rewrite lookup_insert_ne by congruence. Qed.

Lemma add_token_tf_self d st tok :
  term_frequencies (add_token d st tok) !! d =
  Some (let c := default ∅ (term_frequencies st !! d) in
        <[tok := (default 0%nat (c !! tok) + 1)%nat]> c).
Proof. unfold add_token; simpl. by rewrite lookup_insert_eq. Qed.

(** ** The whole token loop *)

Lemma fold_add_token_docmap d toks st :
  docmap (fold_left (add_token d) toks st) = docmap st.
Proof. revert st; induction toks as [|t toks IH]; intros st; simpl; [done|]. by rewrite IH. Qed.

Lemma fold_add_token_doc_lengths d toks st :
  doc_lengths (fold_left (add_token d) toks st) = doc_lengths st.
Proof. revert st; induction toks as [|t toks IH]; intros st; simpl; [done|]. by rewrite IH. Qed.

Lemma fold_add_token_tf_other d toks st x :
  x <> d ->
  term_frequencies (fold_left (add_token d) toks st) !! x = term_frequencies st !! x.
Proof.
  intros Hne. revert st; induction toks as [|t toks IH]; intros st; simpl; [done|].
  rewrite IH. by apply add_token_tf_other.
Qed.

Lemma fold_add_token_tf_sum d toks st c :
  term_frequencies st !! d = Some c ->
  sum_values <$> term_frequencies (fold_left (add_token d) toks st) !! d =
  Some (sum_values c + length toks)%nat.
Proof.
  revert st c; induction toks as [|t toks IH]; intros st c Hc; simpl.
  - rewrite Hc. simpl. f_equal. lia.
  - rewrite (IH _ _ (add_token_tf_self d st t)). rewrite Hc; simpl.
    rewrite sum_values_incr. f_equal. lia.
Qed.

Lemma fold_add_token_tf_count d toks st c t :
  term_frequencies st !! d = Some c ->
  exists c', term_frequencies (fold_left (add_token d) toks st) !! d = Some c' /\
    default 0%nat (c' !! t) = (default 0%nat (c !! t) + count_occ String.string_dec toks t)%nat.
Proof.
  revert st c; induction toks as [|t' toks IH]; intros st c Hc; simpl.
  - exists c. split; [done | lia].
  - destruct (IH _ _ (add_token_tf_self d st t')) as (c' & Hc' & Hcount).
    exists c'. split; [done|]. rewrite Hcount, Hc; simpl.
    destruct (String.string_dec t' t) as [->|Hne].
    + rewrite lookup_insert_eq; simpl. lia.
    + rewrite lookup_insert_ne by done. lia.
Qed.

Lemma fold_add_token_posting d toks st t x :
  x ∈ posting (fold_left (add_token d) toks st) t <->
  x ∈ posting st t \/ (x = d /\ In t toks).
Proof.
  revert st; induction toks as [|t' toks IH]; intros st; simpl.
  - naive_solver.
  - rewrite IH, add_token_posting. naive_solver.
Qed.

(** ** Effects of [__add_document] *)

Lemma add_document_docmap st d text : docmap (add_document tokenize_fn st d text) = docmap st.
Proof.
  unfold add_document; simpl. rewrite fold_add_token_docmap.
  by destruct (term_frequencies st !! d).
Qed.

Lemma add_document_tf_other st d text x :
  x <> d ->
  term_frequencies (add_document tokenize_fn st d text) !! x = term_frequencies st !! x.
Proof.
  intros Hne. unfold add_document; simpl. rewrite fold_add_token_tf_other by done.
  destruct (term_frequencies st !! d); simpl; [done|]. by rewrite lookup_insert_ne by congruence.
Qed.

Lemma add_document_lengths_other st d text x :
  x <> d ->
  doc_lengths (add_document tokenize_fn st d text) !! x = doc_lengths st !! x.
Proof.
  intros Hne. unfold add_document; simpl. rewrite lookup_insert_ne by congruence.
  rewrite fold_add_token_doc_lengths. by destruct (term_frequencies st !! d).
Qed.

Lemma add_document_lengths_self st d text :
  doc_lengths (add_document tokenize_fn st d text) !! d =
  Some (default 0%nat (doc_lengths st !! d) + length (tokenize_fn text))%nat.
Proof.
  unfold add_document; simpl. rewrite lookup_insert_eq, fold_add_token_doc_lengths.
  by destruct (term_frequencies st !! d).
Qed.

(** The counter of [doc_id] before the token loop. *)
Lemma add_document_start st d :
  term_frequencies
    (match term_frequencies st !! d with
     | Some _ => st
     | None => mkIndex (index st) (docmap st) (<[d := ∅]> (term_frequencies st)) (doc_lengths st)
     end) !! d = Some (default ∅ (term_frequencies st !! d)).
Proof. destruct (term_frequencies st !! d) eqn:E; simpl; [done|]. by rewrite lookup_insert_eq. Qed.

Lemma add_document_tf_sum st d text :
  sum_values <$> term_frequencies (add_document tokenize_fn st d text) !! d =
  Some (sum_values (default ∅ (term_frequencies st !! d)) + length (tokenize_fn text))%nat.
Proof. unfold add_document; simpl. apply fold_add_token_tf_sum, add_document_start. Qed.

Lemma add_document_tf_count st d text t :
  is_Some (term_frequencies (add_document tokenize_fn st d text) !! d) /\
  tf_count (add_document tokenize_fn st d text) d t =
  (tf_count st d t + count_occ String.string_dec (tokenize_fn text) t)%nat.
Proof.
  destruct (fold_add_token_tf_count d (tokenize_fn text) _ _ t (add_document_start st d))
    as (c' & Hc' & Hcount).
  unfold tf_count, add_document; simpl. rewrite Hc'. split; [done|].
  rewrite Hcount. destruct (term_frequencies st !! d); simpl; [done|].
  by rewrite lookup_empty.
Qed.

Lemma add_document_posting st d text t x :
  x ∈ posting (add_document tokenize_fn st d text) t <->
  x ∈ posting st t \/ (x = d /\ In t (tokenize_fn text)).
Proof.
  unfold add_document. unfold posting at 1; simpl. fold (posting (fold_left (add_token d)
    (tokenize_fn text) (match term_frequencies st !! d with
     | Some _ => st
     | None => mkIndex (index st) (docmap st) (<[d := ∅]> (term_frequencies st)) (doc_lengths st)
     end)) t).
  rewrite fold_add_token_posting.
  by destruct (term_frequencies st !! d).
Qed.

(** ** The two invariants are preserved by [build] *)

Lemma add_document_contained st d text :
  d ∈ dom (docmap st) -> contained st -> contained (add_document tokenize_fn st d text).
Proof.
  intros Hd (Hp & Htf & Hlen). unfold contained. rewrite add_document_docmap.
  split; [|split].
  - intros t x. rewrite add_document_posting. intros [Hx | [-> _]]; eauto.
  - intros x Hx. apply elem_of_dom in Hx.
    destruct (decide (x = d)) as [->|Hne]; [done|].
    rewrite add_document_tf_other in Hx by done. apply Htf, elem_of_dom, Hx.
  - intros x Hx. apply elem_of_dom in Hx.
    destruct (decide (x = d)) as [->|Hne]; [done|].
    rewrite add_document_lengths_other in Hx by done. apply Hlen, elem_of_dom, Hx.
Qed.

Lemma build_step_contained st m :
  contained st -> contained (build_step tokenize_fn st m).
Proof.
  intros (Hp & Htf & Hlen). unfold build_step. apply add_document_contained.
  - simpl. rewrite dom_insert_L. set_solver.
  - unfold contained, posting in *; simpl. rewrite dom_insert_L.
    split; [|split]; [intros t x Hx; specialize (Hp t x Hx) | |]; set_solver.
Qed.

Lemma build_contained st movies :
  contained st -> contained (build tokenize_fn st movies).
Proof.
  unfold build. revert st; induction movies as [|m movies IH]; intros st Hst; simpl; [done|].
  by apply IH, build_step_contained.
Qed.

Lemma add_document_freq_consistent st d text :
  freq_consistent st -> freq_consistent (add_document tokenize_fn st d text).
Proof.
  intros Hfc x. destruct (decide (x = d)) as [->|Hne].
  - rewrite add_document_tf_sum, add_document_lengths_self. f_equal.
    specialize (Hfc d). destruct (term_frequencies st !! d); simpl in *.
    + by rewrite <- Hfc.
    + by rewrite <- Hfc.
  - by rewrite add_document_tf_other, add_document_lengths_other.
Qed.

Lemma build_freq_consistent st movies :
  freq_consistent st -> freq_consistent (build tokenize_fn st movies).
Proof.
  unfold build. revert st; induction movies as [|m movies IH]; intros st Hst; simpl; [done|].
  apply IH. unfold build_step. apply add_document_freq_consistent. exact Hst.
Qed.

Lemma reachable_contained st : reachable tokenize_fn st -> contained st.
Proof.
  induction 1.
  - unfold contained, posting; simpl. split; [|split]; [intros t x; rewrite lookup_empty; simpl| |]; set_solver.
  - by apply build_contained.
Qed.

Lemma reachable_freq_consistent st : reachable tokenize_fn st -> freq_consistent st.
Proof.
  induction 1.
  - intros x. reflexivity.
  - by apply build_freq_consistent.
Qed.

(** A token's document frequency is at most the catalog size. *)
Lemma reachable_df_le st tok : reachable tokenize_fn st -> (doc_freq st tok <= doc_count st)%nat.
Proof.
  intros Hr. destruct (reachable_contained st Hr) as (Hp & _ & _).
  unfold doc_freq, doc_count. rewrite <- size_dom.
  apply subseteq_size. intros x Hx. by apply (Hp tok).
Qed.

(** ** IDF arithmetic *)

Lemma idf_arg_eq n df :
  (IZR (Z.of_nat n - Z.of_nat df) + 0.5) / (INR df + 0.5) + 1.0 =
  (INR n + 1) / (INR df + 0.5).
Proof.
  rewrite minus_IZR, <- !INR_IZR_INZ.
  replace 0.5 with (/2) by lra. replace 1.0 with 1 by lra.
  assert (0 < INR df + /2) by (pose proof (pos_INR df); lra).
  field. lra.
Qed.

Lemma idf_arg_pos n df :
  0 < (IZR (Z.of_nat n - Z.of_nat df) + 0.5) / (INR df + 0.5) + 1.0.
Proof.
  rewrite idf_arg_eq. pose proof (pos_INR n). pose proof (pos_INR df).
  apply Rdiv_lt_0_compat; lra.
Qed.

Lemma idf_arg_ge_1 n df :
  (df <= n)%nat -> 1 <= (IZR (Z.of_nat n - Z.of_nat df) + 0.5) / (INR df + 0.5) + 1.0.
Proof.
  intros Hle.
  assert (0 <= IZR (Z.of_nat n - Z.of_nat df)) by (apply IZR_le; lia).
  assert (0 < INR df + 0.5) by (pose proof (pos_INR df); lra).
  assert (0 <= (IZR (Z.of_nat n - Z.of_nat df) + 0.5) / (INR df + 0.5)).
  { apply Rmult_le_pos; [lra|]. left. by apply Rinv_0_lt_compat. }
  lra.
Qed.

Lemma idf_arg_antitone n d1 d2 :
  (d1 <= d2)%nat ->
  (IZR (Z.of_nat n - Z.of_nat d2) + 0.5) / (INR d2 + 0.5) + 1.0 <=
  (IZR (Z.of_nat n - Z.of_nat d1) + 0.5) / (INR d1 + 0.5) + 1.0.
Proof.
  intros Hle. rewrite !idf_arg_eq.
  pose proof (pos_INR n). pose proof (pos_INR d1). apply le_INR in Hle.
  unfold Rdiv. apply Rmult_le_compat_l; [lra|].
  apply Rinv_le_contravar; lra.
Qed.

Lemma ln_le_compat x y : 0 < x -> x <= y -> ln x <= ln y.
Proof.
  intros Hx [Hlt | ->]; [left; by apply ln_increasing | right; reflexivity].
Qed.

Lemma py_log_pos x : 0 < x -> py_log x = Ok (ln x).
Proof. intros Hx. unfold py_log. destruct (Rle_dec x 0); [lra | done]. Qed.

(** The IDF of a single token never raises. *)
Lemma get_bm25_idf_single st term token :
  tokenize_fn term = [token] ->
  get_bm25_idf tokenize_fn st term =
  Ok (if Nat.eq_dec (doc_count st) 0%nat then 0
      else ln ((IZR (Z.of_nat (doc_count st) - Z.of_nat (doc_freq st token)) + 0.5)
               / (INR (doc_freq st token) + 0.5) + 1.0)).
Proof.
  intros Htok. unfold get_bm25_idf. rewrite Htok.
  destruct (Nat.eq_dec (doc_count st) 0%nat); [done|]. apply py_log_pos, idf_arg_pos.
Qed.

(** ** Claims about the accessors and the build invariants *)

(** C6: [get_frequency] raises [ValueError] (the spec's InvalidTermError)
    exactly when the term does not tokenize to one token; for a single
    token it returns the recorded count, 0 for an unknown document or an
    absent token. *)
Theorem get_frequency_spec st doc_id term :
  (get_frequency tokenize_fn st doc_id term = Err ValueError <->
   length (tokenize_fn term) <> 1%nat) /\
  (forall tok, tokenize_fn term = [tok] ->
   get_frequency tokenize_fn st doc_id term = Ok (tf_count st doc_id tok) /\
   (term_frequencies st !! doc_id = None -> tf_count st doc_id tok = 0%nat) /\
   (forall c, term_frequencies st !! doc_id = Some c -> c !! tok = None ->
    tf_count st doc_id tok = 0%nat) /\
   (forall c k, term_frequencies st !! doc_id = Some c -> c !! tok = Some k ->
    tf_count st doc_id tok = k)).
Proof.
  split.
  - unfold get_frequency. destruct (tokenize_fn term) as [|t [|t' l]]; simpl.
    + split; [lia | done].
    + split; [|lia].
      destruct (term_frequencies st !! doc_id); [case_decide|]; discriminate.
    + split; [lia | done].
  - intros tok Htok. unfold get_frequency, tf_count. rewrite Htok.
    split; [|split; [|split]].
    + destruct (term_frequencies st !! doc_id) as [c|]; [|done].
      case_decide as Hc; [|done]. subst c. by rewrite lookup_empty.
    + by intros ->.
    + intros c -> Hc. by rewrite Hc.
    + intros c k -> Hc. by rewrite Hc.
Qed.

(** C7: frequency consistency holds in every state reached by [build]
    calls from a fresh index. *)
Theorem build_frequency_consistency st :
  reachable tokenize_fn st ->
  forall d c, term_frequencies st !! d = Some c -> doc_lengths st !! d = Some (sum_values c).
Proof.
  intros Hr d c Hc. rewrite <- (reachable_freq_consistent st Hr d), Hc. done.
Qed.

(** C10: in every state reached by [build] calls from a fresh index, each
    document id in a posting set, the term-frequency table or the length
    table is a catalog key, so a token's document frequency is at most
    the catalog size. *)
Theorem build_ids_in_catalog st :
  reachable tokenize_fn st ->
  (forall t x, x ∈ posting st t -> is_Some (docmap st !! x)) /\
  (forall x, is_Some (term_frequencies st !! x) -> is_Some (docmap st !! x)) /\
  (forall x, is_Some (doc_lengths st !! x) -> is_Some (docmap st !! x)) /\
  (forall t, (doc_freq st t <= doc_count st)%nat).
Proof.
  intros Hr. pose proof (reachable_contained st Hr) as (Hp & Htf & Hlen).
  split; [|split; [|split]].
  - intros t x Hx. apply elem_of_dom. by apply (Hp t).
  - intros x Hx. apply elem_of_dom, Htf, elem_of_dom, Hx.
  - intros x Hx. apply elem_of_dom, Hlen, elem_of_dom, Hx.
  - intros t. by apply reachable_df_le.
Qed.

(** C2: [get_bm25_idf] raises [ValueError] unless the term is one token;
    otherwise it returns 0 on an empty catalog and
    [ln((n - df + 0.5) / (df + 0.5) + 1.0)] else; on states built from a
    fresh index the value is non-negative. *)
Theorem get_bm25_idf_spec st term :
  (get_bm25_idf tokenize_fn st term = Err ValueError <-> length (tokenize_fn term) <> 1%nat) /\
  (forall token, tokenize_fn term = [token] ->
   get_bm25_idf tokenize_fn st term =
   Ok (if Nat.eq_dec (doc_count st) 0%nat then 0
       else ln ((IZR (Z.of_nat (doc_count st) - Z.of_nat (doc_freq st token)) + 0.5)
                / (INR (doc_freq st token) + 0.5) + 1.0))) /\
  (reachable tokenize_fn st ->
   forall v, get_bm25_idf tokenize_fn st term = Ok v -> 0 <= v).
Proof.
  split; [|split].
  - destruct (tokenize_fn term) as [|t [|t' l]] eqn:Htok; simpl.
    + unfold get_bm25_idf. rewrite Htok. split; [lia | done].
    + rewrite (get_bm25_idf_single st term t Htok). split; [discriminate | lia].
    + unfold get_bm25_idf. rewrite Htok. split; [lia | done].
  - apply get_bm25_idf_single.
  - intros Hr v Hv. unfold get_bm25_idf in Hv.
    destruct (tokenize_fn term) as [|t [|t' l]] eqn:Htok; try discriminate.
    destruct (Nat.eq_dec (doc_count st) 0%nat).
    + injection Hv as <-. lra.
    + rewrite py_log_pos in Hv by apply idf_arg_pos. injection Hv as <-.
      rewrite <- ln_1. apply ln_le_compat; [lra|].
      by apply idf_arg_ge_1, reachable_df_le.
Qed.

(** C8: for a fixed state, a single-token term whose posting set is
    contained in, or no larger than, another's has an IDF at least as
    large. *)
Theorem get_bm25_idf_antitone st t1 t2 tok1 tok2 :
  tokenize_fn t1 = [tok1] -> tokenize_fn t2 = [tok2] ->
  posting st tok1 ⊆ posting st tok2 \/ (doc_freq st tok1 <= doc_freq st tok2)%nat ->
  exists v1 v2, get_bm25_idf tokenize_fn st t1 = Ok v1 /\
    get_bm25_idf tokenize_fn st t2 = Ok v2 /\ v2 <= v1.
Proof.
  intros H1 H2 Hsub.
  assert (Hle : (doc_freq st tok1 <= doc_freq st tok2)%nat).
  { destruct Hsub as [Hsub|]; [|done]. by apply subseteq_size. }
  eexists _, _. rewrite (get_bm25_idf_single st t1 tok1 H1), (get_bm25_idf_single st t2 tok2 H2).
  split; [done | split; [done|]].
  destruct (Nat.eq_dec (doc_count st) 0%nat); [lra|].
  apply ln_le_compat; [apply idf_arg_pos|]. by apply idf_arg_antitone.
Qed.

(** ** Persistence *)

Lemma append_cancel_l (p s1 s2 : string) :
  String.append p s1 = String.append p s2 -> s1 = s2.
Proof. induction p as [|c p IH]; simpl; [done|]. intros H. injection H. apply IH. Qed.

Lemma string_append_assoc (x y z : string) :
  String.append (String.append x y) z = String.append x (String.append y z).
Proof.
  induction x as [|c x IH]; [reflexivity|].
  change (String c (String.append (String.append x y) z) =
          String c (String.append x (String.append y z))).
  by rewrite IH.
Qed.

(** [os.path.join(cache_dir, name)] for a relative [name] is one prefix,
    depending on [cache_dir] only, followed by [name]; the four file
    names thus give four different paths. *)
Lemma py_join_prefix a :
  exists p, forall c s, c <> "/"%char ->
    py_join a (String c s) = String.append p (String c s).
Proof.
  assert (Hm : forall T (x y : T) c s, c <> "/"%char ->
    match String c s with String "/"%char _ => x | _ => y end = y).
  { intros T x y c s Hc. destruct c as [[] [] [] [] [] [] [] []]; try reflexivity. by exfalso. }
  unfold py_join.
  destruct (String.eqb a EmptyString) eqn:E1.
  { exists EmptyString. intros c s Hc. rewrite Hm by done. done. }
  destruct (String.eqb (String.substring (String.length a - 1) 1 a) "/") eqn:E2.
  { exists a. intros c s Hc. rewrite Hm by done. done. }
  exists (String.append a "/"). intros c s Hc. rewrite Hm by done.
  by rewrite string_append_assoc.
Qed.

Lemma save_lookups st a fs :
  save st a fs !! index_path a = Some (BIndex (index st)) /\
  save st a fs !! docmap_path a = Some (BDocmap (docmap st)) /\
  save st a fs !! frequencies_path a = Some (BTermFrequencies (term_frequencies st)) /\
  save st a fs !! doc_lengths_path a = Some (BDocLengths (doc_lengths st)).
Proof.
  destruct (py_join_prefix a) as [p Hp].
  unfold save, index_path, docmap_path, frequencies_path, doc_lengths_path.
  rewrite !Hp by discriminate.
  split; [|split; [|split]];
    repeat first [ rewrite lookup_insert_eq; reflexivity
                 | rewrite lookup_insert_ne;
                   [|intros Heq; apply append_cancel_l in Heq; discriminate] ].
Qed.

(** ** Effects of [build] *)

Lemma build_step_docmap st m x :
  docmap (build_step tokenize_fn st m) !! x =
  if bool_decide (id m = x) then Some m else docmap st !! x.
Proof.
  unfold build_step. rewrite add_document_docmap; simpl.
  case_bool_decide as Hx; [subst; apply lookup_insert_eq | by apply lookup_insert_ne].
Qed.

Lemma build_step_lengths st m x :
  doc_lengths (build_step tokenize_fn st m) !! x =
  if bool_decide (id m = x)
  then Some (default 0%nat (doc_lengths st !! x) + length (tokenize_fn (movie_text m)))%nat
  else doc_lengths st !! x.
Proof.
  unfold build_step. case_bool_decide as Hx.
  - subst. rewrite add_document_lengths_self. reflexivity.
  - rewrite add_document_lengths_other by done. reflexivity.
Qed.

Lemma build_step_tf_other st m x :
  id m <> x -> term_frequencies (build_step tokenize_fn st m) !! x = term_frequencies st !! x.
Proof. intros Hx. unfold build_step. rewrite add_document_tf_other by done. reflexivity. Qed.

Lemma build_step_tf_count st m x t :
  tf_count (build_step tokenize_fn st m) x t =
  (tf_count st x t +
   (if bool_decide (id m = x) then count_occ String.string_dec (tokenize_fn (movie_text m)) t
    else 0))%nat.
Proof.
  case_bool_decide as Hx.
  - subst. unfold build_step. by destruct (add_document_tf_count
      (mkIndex (index st) (<[id m:=m]> (docmap st)) (term_frequencies st) (doc_lengths st))
      (id m) (movie_text m) t) as [_ Heq]; rewrite Heq; reflexivity.
  - unfold tf_count. rewrite build_step_tf_other by done. lia.
Qed.

Lemma build_step_tf_self st m :
  is_Some (term_frequencies (build_step tokenize_fn st m) !! id m).
Proof.
  unfold build_step. exact (proj1 (add_document_tf_count
      (mkIndex (index st) (<[id m:=m]> (docmap st)) (term_frequencies st) (doc_lengths st))
      (id m) (movie_text m) "")).
Qed.

Lemma build_step_posting st m t x :
  x ∈ posting (build_step tokenize_fn st m) t <->
  x ∈ posting st t \/ (x = id m /\ In t (tokenize_fn (movie_text m))).
Proof. unfold build_step. by rewrite add_document_posting. Qed.

Lemma build_tokens_cons m movies d :
  build_tokens tokenize_fn (m :: movies) d =
  (if bool_decide (id m = d) then tokenize_fn (movie_text m) else []) ++ build_tokens tokenize_fn movies d.
Proof. unfold build_tokens. simpl. by case_bool_decide. Qed.

Lemma build_tokens_absent movies d : d ∉ map id movies -> build_tokens tokenize_fn movies d = [].
Proof.
  induction movies as [|m movies IH]; intros Hd; [done|].
  rewrite build_tokens_cons. simpl in Hd. rewrite elem_of_cons in Hd.
  case_bool_decide; [naive_solver|]. apply IH. naive_solver.
Qed.

Lemma last_movie_cons m movies d :
  last_movie (m :: movies) d =
  match last_movie movies d with
  | Some m' => Some m'
  | None => if bool_decide (id m = d) then Some m else None
  end.
Proof.
  unfold last_movie. simpl. case_bool_decide; [|by destruct last].
  destruct (List.filter _ movies) eqn:E; simpl; [done|].
  rewrite last_cons. by destruct (last l).
Qed.

Lemma last_movie_absent movies d : d ∉ map id movies -> last_movie movies d = None.
Proof.
  induction movies as [|m movies IH]; intros Hd; [done|].
  rewrite last_movie_cons. simpl in Hd. rewrite elem_of_cons in Hd.
  rewrite IH by naive_solver. case_bool_decide; naive_solver.
Qed.

Lemma last_movie_present movies d : d ∈ map id movies -> is_Some (last_movie movies d).
Proof.
  induction movies as [|m movies IH]; intros Hd; [by apply elem_of_nil in Hd|].
  rewrite last_movie_cons. simpl in Hd. apply elem_of_cons in Hd.
  destruct (last_movie movies d); [done|].
  case_bool_decide; [done|]. destruct Hd as [->|Hd]; [done|]. by destruct (IH Hd).
Qed.

Lemma build_cons st m movies :
  build tokenize_fn st (m :: movies) = build tokenize_fn (build_step tokenize_fn st m) movies.
Proof. reflexivity. Qed.

Lemma build_tf_count st movies d t :
  tf_count (build tokenize_fn st movies) d t =
  (tf_count st d t + count_occ String.string_dec (build_tokens tokenize_fn movies d) t)%nat.
Proof.
  revert st; induction movies as [|m movies IH]; intros st; [simpl; lia|].
  rewrite build_cons, IH, build_step_tf_count, build_tokens_cons, count_occ_app.
  case_bool_decide; simpl; lia.
Qed.

Lemma build_posting st movies t x :
  x ∈ posting (build tokenize_fn st movies) t <->
  x ∈ posting st t \/ In t (build_tokens tokenize_fn movies x).
Proof.
  revert st; induction movies as [|m movies IH]; intros st; [simpl; naive_solver|].
  rewrite build_cons, IH, build_step_posting, build_tokens_cons, in_app_iff.
  case_bool_decide as Hx; simpl; naive_solver.
Qed.

Lemma build_lengths st movies d :
  doc_lengths (build tokenize_fn st movies) !! d =
  if bool_decide (d ∈ map id movies)
  then Some (default 0%nat (doc_lengths st !! d) + length (build_tokens tokenize_fn movies d))%nat
  else doc_lengths st !! d.
Proof.
  revert st; induction movies as [|m movies IH]; intros st; [done|].
  rewrite build_cons, IH, build_step_lengths, build_tokens_cons.
  simpl map. case_bool_decide as Hin; case_bool_decide as Hm;
    case_bool_decide as Hin'; rewrite ?elem_of_cons in Hin';
    rewrite ?length_app; simpl;
    first [ exfalso; naive_solver
          | reflexivity
          | rewrite ?build_tokens_absent by done; simpl; f_equal; lia ].
Qed.

Lemma build_tf_frame st movies d :
  d ∉ map id movies ->
  term_frequencies (build tokenize_fn st movies) !! d = term_frequencies st !! d.
Proof.
  revert st; induction movies as [|m movies IH]; intros st Hd; [done|].
  simpl in Hd. rewrite elem_of_cons in Hd.
  rewrite build_cons, IH by naive_solver. apply build_step_tf_other. naive_solver.
Qed.

Lemma build_tf_present st movies d :
  is_Some (term_frequencies st !! d) \/ d ∈ map id movies ->
  is_Some (term_frequencies (build tokenize_fn st movies) !! d).
Proof.
  revert st; induction movies as [|m movies IH]; intros st Hd.
  - destruct Hd as [|Hd]; [done|]. by apply elem_of_nil in Hd.
  - rewrite build_cons. apply IH. simpl in Hd. rewrite elem_of_cons in Hd.
    destruct (decide (id m = d)) as [<-|Hne].
    + left. apply build_step_tf_self.
    + rewrite build_step_tf_other by done. naive_solver.
Qed.

Lemma build_docmap st movies d :
  docmap (build tokenize_fn st movies) !! d =
  match last_movie movies d with
  | Some m => Some m
  | None => docmap st !! d
  end.
Proof.
  revert st; induction movies as [|m movies IH]; intros st; [done|].
  rewrite build_cons, IH, build_step_docmap, last_movie_cons.
  destruct (last_movie movies d); [done|]. by case_bool_decide.
Qed.

(** C9 (as the code does it): [build] leaves every document id absent
    from its input untouched. For an id in the input, the catalog entry
    is replaced by the last record with that id, but the other three
    structures accumulate: the new tokens' counts are added to the
    previous counts and length, and the id joins the posting sets of the
    new tokens without leaving those of its previous tokens. *)
Theorem build_frame_and_accumulate st movies d :
  (d ∉ map id movies ->
   docmap (build tokenize_fn st movies) !! d = docmap st !! d /\
   term_frequencies (build tokenize_fn st movies) !! d = term_frequencies st !! d /\
   doc_lengths (build tokenize_fn st movies) !! d = doc_lengths st !! d /\
   (forall t, d ∈ posting (build tokenize_fn st movies) t <-> d ∈ posting st t)) /\
  (d ∈ map id movies ->
   docmap (build tokenize_fn st movies) !! d = last_movie movies d /\
   is_Some (term_frequencies (build tokenize_fn st movies) !! d) /\
   (forall t, tf_count (build tokenize_fn st movies) d t =
              (tf_count st d t +
               count_occ String.string_dec (build_tokens tokenize_fn movies d) t)%nat) /\
   doc_lengths (build tokenize_fn st movies) !! d =
     Some (default 0%nat (doc_lengths st !! d) +
           length (build_tokens tokenize_fn movies d))%nat /\
   (forall t, d ∈ posting (build tokenize_fn st movies) t <->
              d ∈ posting st t \/ In t (build_tokens tokenize_fn movies d))).
Proof.
  split; intros Hd.
  - split; [|split; [|split]].
    + by rewrite build_docmap, last_movie_absent.
    + by apply build_tf_frame.
    + rewrite build_lengths. by case_bool_decide.
    + intros t. rewrite build_posting, build_tokens_absent by done. simpl. naive_solver.
  - split; [|split; [|split; [|split]]].
    + rewrite build_docmap. destruct (last_movie_present movies d Hd) as [m ->]. done.
    + apply build_tf_present. by right.
    + intros t. apply build_tf_count.
    + rewrite build_lengths. by case_bool_decide.
    + intros t. apply build_posting.
Qed.

(** ** BM25 term-frequency component *)

Lemma get_frequency_single st doc_id term tok :
  tokenize_fn term = [tok] -> get_frequency tokenize_fn st doc_id term = Ok (tf_count st doc_id tok).
Proof.
  intros Htok. unfold get_frequency, tf_count. rewrite Htok.
  destruct (term_frequencies st !! doc_id) as [c|]; [|done].
  case_decide as Hc; [|done]. subst c. by rewrite lookup_empty.
Qed.

Lemma get_avg_doc_length_nonneg st : 0 <= get_avg_doc_length st.
Proof.
  unfold get_avg_doc_length. case_decide; [lra|].
  unfold Rdiv. apply Rmult_le_pos; [apply pos_INR|].
  destruct (size (doc_lengths st)) as [|n].
  - simpl. rewrite Rinv_0. lra.
  - apply Rlt_le, Rinv_0_lt_compat, lt_0_INR. lia.
Qed.

(** The three outcomes of [get_bm25_tf] for a single-token term. *)
Lemma get_bm25_tf_unfold st doc_id term tok k1 b :
  tokenize_fn term = [tok] ->
  get_bm25_tf tokenize_fn st doc_id term k1 b =
  if Nat.eq_dec (default 0%nat (doc_lengths st !! doc_id)) 0%nat then Ok 0
  else if Req_dec_T (get_avg_doc_length st) 0 then Ok 0
  else py_div (INR (tf_count st doc_id tok) * (k1 + 1))
         (INR (tf_count st doc_id tok) + k1 * (1 - b + b *
            (INR (default 0%nat (doc_lengths st !! doc_id)) / get_avg_doc_length st))).
Proof. intros Htok. unfold get_bm25_tf. by rewrite (get_frequency_single st doc_id term tok Htok). Qed.

(** A zero denominator makes the last division raise. *)
Lemma get_bm25_tf_zero_denominator st doc_id term tok k1 b :
  tokenize_fn term = [tok] ->
  default 0%nat (doc_lengths st !! doc_id) <> 0%nat -> get_avg_doc_length st <> 0 ->
  INR (tf_count st doc_id tok) + k1 * (1 - b + b *
    (INR (default 0%nat (doc_lengths st !! doc_id)) / get_avg_doc_length st)) = 0 ->
  get_bm25_tf tokenize_fn st doc_id term k1 b = Err ZeroDivisionError.
Proof.
  intros Htok Hlen Havg Hden. rewrite (get_bm25_tf_unfold st doc_id term tok k1 b Htok).
  destruct (Nat.eq_dec _ 0%nat); [done|]. destruct (Req_dec_T _ 0); [done|].
  unfold py_div. rewrite Hden. by destruct (Req_dec_T 0 0).
Qed.

(** With [k1 > 0] and [0 <= b <= 1] the denominator of the TF
    component is positive. *)
Lemma tf_denominator_pos st doc_id tok k1 b :
  default 0%nat (doc_lengths st !! doc_id) <> 0%nat -> get_avg_doc_length st <> 0 ->
  0 < k1 -> 0 <= b <= 1 ->
  0 < INR (tf_count st doc_id tok) + k1 * (1 - b + b *
    (INR (default 0%nat (doc_lengths st !! doc_id)) / get_avg_doc_length st)).
Proof.
  intros Hlen Havg Hk1 Hb.
  pose proof (get_avg_doc_length_nonneg st) as Hnn.
  assert (Hr : 0 < INR (default 0%nat (doc_lengths st !! doc_id)) / get_avg_doc_length st).
  { apply Rdiv_lt_0_compat; [apply lt_0_INR; lia | lra]. }
  assert (Hnorm : 0 < 1 - b +
    b * (INR (default 0%nat (doc_lengths st !! doc_id)) / get_avg_doc_length st)).
  { destruct (Req_dec_T b 0) as [-> | Hb0]; [rewrite Rmult_0_l; lra|].
    assert (0 < b * (INR (default 0%nat (doc_lengths st !! doc_id)) / get_avg_doc_length st))
      by (apply Rmult_lt_0_compat; lra).
    lra. }
  pose proof (pos_INR (tf_count st doc_id tok)).
  pose proof (Rmult_lt_0_compat _ _ Hk1 Hnorm). lra.
Qed.

Lemma get_bm25_tf_nonzero_ok st doc_id term tok k1 b :
  tokenize_fn term = [tok] ->
  INR (tf_count st doc_id tok) + k1 * (1 - b + b *
    (INR (default 0%nat (doc_lengths st !! doc_id)) / get_avg_doc_length st)) <> 0 ->
  exists v, get_bm25_tf tokenize_fn st doc_id term k1 b = Ok v.
Proof.
  intros Htok Hden. rewrite (get_bm25_tf_unfold st doc_id term tok k1 b Htok).
  destruct (Nat.eq_dec _ 0%nat); [by eexists|]. destruct (Req_dec_T _ 0); [by eexists|].
  unfold py_div. destruct (Req_dec_T _ 0); [done | by eexists].
Qed.

(** C3 (as the code does it): for a single-token term, [get_bm25_tf]
    returns 0.0 when the document's length entry (0 if absent) or the
    average length (the mean of the length table, 0 when it is empty) is
    zero; otherwise, when the denominator [tf + k1 * lengthNorm] is not
    zero, it returns [(tf * (k1 + 1)) / (tf + k1 * lengthNorm)]. The
    denominator is positive whenever [k1 > 0] and [0 <= b <= 1]. *)
Theorem get_bm25_tf_spec st doc_id term tok k1 b :
  tokenize_fn term = [tok] ->
  get_avg_doc_length st =
    (if decide (doc_lengths st = ∅) then 0
     else INR (sum_values (doc_lengths st)) / INR (size (doc_lengths st))) /\
  (default 0%nat (doc_lengths st !! doc_id) = 0%nat \/ get_avg_doc_length st = 0 ->
   get_bm25_tf tokenize_fn st doc_id term k1 b = Ok 0) /\
  (default 0%nat (doc_lengths st !! doc_id) <> 0%nat -> get_avg_doc_length st <> 0 ->
   INR (tf_count st doc_id tok) + k1 * (1 - b + b *
     (INR (default 0%nat (doc_lengths st !! doc_id)) / get_avg_doc_length st)) <> 0 ->
   get_bm25_tf tokenize_fn st doc_id term k1 b =
   Ok ((INR (tf_count st doc_id tok) * (k1 + 1)) /
       (INR (tf_count st doc_id tok) + k1 * (1 - b + b *
          (INR (default 0%nat (doc_lengths st !! doc_id)) / get_avg_doc_length st))))) /\
  (default 0%nat (doc_lengths st !! doc_id) <> 0%nat -> get_avg_doc_length st <> 0 ->
   0 < k1 -> 0 <= b <= 1 ->
   0 < INR (tf_count st doc_id tok) + k1 * (1 - b + b *
     (INR (default 0%nat (doc_lengths st !! doc_id)) / get_avg_doc_length st))).
Proof.
  intros Htok. rewrite (get_bm25_tf_unfold st doc_id term tok k1 b Htok).
  split; [reflexivity|]. split; [|split].
  - intros [Hz | Hz].
    + rewrite Hz. by destruct (Nat.eq_dec 0%nat 0%nat).
    + destruct (Nat.eq_dec _ 0%nat); [done|]. rewrite Hz. by destruct (Req_dec_T 0 0).
  - intros Hlen Havg Hden.
    destruct (Nat.eq_dec _ 0%nat); [done|]. destruct (Req_dec_T _ 0); [done|].
    unfold py_div. by destruct (Req_dec_T _ 0).
  - intros Hlen Havg Hk1 Hb. by apply tf_denominator_pos.
Qed.

(** ** Candidates and scores of [bm25_search] *)

Lemma candidate_set_aux st toks acc x :
  x ∈ fold_left (fun c tok => c ∪ default ∅ (index st !! tok)) toks acc <->
  x ∈ acc \/ exists tok, In tok toks /\ x ∈ posting st tok.
Proof.
  revert acc; induction toks as [|t toks IH]; intros acc; simpl.
  - split; [auto|]. intros [?|(? & [] & _)]; done.
  - rewrite IH, elem_of_union. unfold posting. split.
    + intros [[Hx|Hx]|(tok & Hin & Hx)]; eauto.
    + intros [Hx|(tok & [<-|Hin] & Hx)]; eauto.
Qed.

Lemma elem_of_candidate_set st toks x :
  x ∈ candidate_set st toks <-> exists tok, In tok toks /\ x ∈ posting st tok.
Proof. unfold candidate_set. rewrite candidate_set_aux. set_solver. Qed.

Lemma score_candidates_spec st toks k1 b cands scores :
  score_candidates tokenize_fn st toks k1 b cands = Ok scores ->
  (forall d s, In (d, s) scores <->
     In d cands /\ aggregate_score tokenize_fn st toks k1 b d = Ok s /\ 0 < s) /\
  (NoDup cands -> NoDup (map fst scores)).
Proof.
  revert scores; induction cands as [|d cands IH]; intros scores Hsc; simpl in Hsc.
  - injection Hsc as <-. split; [simpl; tauto | intros _; apply NoDup_nil_2].
  - destruct (aggregate_score tokenize_fn st toks k1 b d) as [total|e] eqn:Hagg; [|discriminate].
    simpl in Hsc.
    destruct (score_candidates tokenize_fn st toks k1 b cands) as [rest|e] eqn:Hrest; [|discriminate].
    simpl in Hsc. injection Hsc as <-.
    destruct (IH rest eq_refl) as [Hin Hnd].
    destruct (Rlt_dec 0 total) as [Hpos|Hnpos].
    + split.
      * intros d' s'. simpl. rewrite Hin. split.
        -- intros [Heq | (Hc & Ha & Hp)]; [injection Heq as <- <-|]; eauto.
        -- intros ([<- | Hc] & Ha & Hp); [|eauto].
           left. rewrite Hagg in Ha. by injection Ha as <-.
      * intros Hnodup. apply NoDup_cons in Hnodup as [Hnot Hnodup].
        simpl. apply NoDup_cons. split; [|by apply Hnd].
        intros Hd. apply list_elem_of_In, in_map_iff in Hd as ([d' s'] & Heq & Hds).
        simpl in Heq; subst d'. apply Hin in Hds. apply Hnot, list_elem_of_In. naive_solver.
    + split.
      * intros d' s'. rewrite Hin. simpl. split.
        -- intros (Hc & Ha & Hp). eauto.
        -- intros ([<- | Hc] & Ha & Hp); [|eauto].
           rewrite Hagg in Ha. injection Ha as <-. lra.
      * intros Hnodup. apply NoDup_cons in Hnodup as [_ Hnodup]. by apply Hnd.
Qed.

Lemma result_bind_ok {A B} (a : A) (f : A -> Result B) : (Ok a ≫= f) = f a.
Proof. reflexivity. Qed.

Lemma result_bind_err {A B} (e : PyError) (f : A -> Result B) : (Err e ≫= f) = Err e.
Proof. reflexivity. Qed.

Lemma bm25_tf_ok st doc_id term tok k1 b v :
  tokenize_fn term = [tok] -> get_bm25_tf tokenize_fn st doc_id term k1 b = Ok v ->
  exists w, bm25 tokenize_fn st doc_id term k1 b = Ok w.
Proof.
  intros Htok Htf. unfold bm25. rewrite (get_bm25_idf_single st term tok Htok), result_bind_ok.
  rewrite Htf. by eexists.
Qed.

Lemma bm25_tf_err st doc_id term tok k1 b e :
  tokenize_fn term = [tok] -> get_bm25_tf tokenize_fn st doc_id term k1 b = Err e ->
  bm25 tokenize_fn st doc_id term k1 b = Err e.
Proof.
  intros Htok Htf. unfold bm25. rewrite (get_bm25_idf_single st term tok Htok), result_bind_ok.
  by rewrite Htf.
Qed.

Lemma bm25_no_error st doc_id t k1 b :
  tokenize_fn t = [t] -> 0 < k1 -> 0 <= b <= 1 ->
  exists v, bm25 tokenize_fn st doc_id t k1 b = Ok v.
Proof.
  intros Htok Hk1 Hb.
  assert (exists v, get_bm25_tf tokenize_fn st doc_id t k1 b = Ok v) as [v Hv].
  { rewrite (get_bm25_tf_unfold st doc_id t t k1 b Htok).
    destruct (Nat.eq_dec _ 0%nat) as [|Hlen]; [by eexists|].
    destruct (Req_dec_T _ 0) as [|Havg]; [by eexists|].
    unfold py_div. destruct (Req_dec_T _ 0) as [Hz|]; [|by eexists].
    pose proof (tf_denominator_pos st doc_id t k1 b Hlen Havg Hk1 Hb). lra. }
  by apply (bm25_tf_ok st doc_id t t k1 b v).
Qed.

Lemma sum_scores_no_error st doc_id toks k1 b total :
  (forall t, In t toks -> exists v, bm25 tokenize_fn st doc_id t k1 b = Ok v) ->
  exists v, sum_scores tokenize_fn st doc_id toks k1 b total = Ok v.
Proof.
  revert total; induction toks as [|t toks IH]; intros total Hok; simpl; [by eexists|].
  destruct (Hok t (or_introl eq_refl)) as [v Hv]. rewrite Hv, result_bind_ok.
  apply IH. intros t' Ht'. apply Hok. by right.
Qed.

Lemma score_candidates_no_error st toks k1 b cands :
  (forall d, exists v, aggregate_score tokenize_fn st toks k1 b d = Ok v) ->
  exists scores, score_candidates tokenize_fn st toks k1 b cands = Ok scores.
Proof.
  intros Hok. induction cands as [|d cands IH]; simpl; [by eexists|].
  destruct (Hok d) as [v Hv]. rewrite Hv, result_bind_ok.
  destruct IH as [scores Hs]. rewrite Hs, result_bind_ok. by eexists.
Qed.

Lemma py_slice_to_nil {A} limit : py_slice_to (@nil A) limit = [].
Proof. unfold py_slice_to. by destruct (Z.leb 0 limit); rewrite firstn_nil. Qed.

(** C1 (as the code does it): an empty tokenization gives [[]]; whenever
    [bm25_search] returns a list, it is [ranked[:limit]] where [ranked]
    lists, by decreasing aggregate score and without repeated ids,
    exactly the candidates (documents in the posting set of some query
    token) whose aggregate score is strictly positive, with that score;
    for [limit >= 0] it has at most [limit] pairs. The search raises no
    exception when [k1 > 0], [0 <= b <= 1] and every query token
    tokenizes to itself. *)
Theorem bm25_search_spec st query k1 b limit :
  (tokenize_fn query = [] -> bm25_search tokenize_fn st query k1 b limit = Ok []) /\
  (forall res, bm25_search tokenize_fn st query k1 b limit = Ok res ->
     exists ranked, res = py_slice_to ranked limit /\
       Sorted score_desc ranked /\ NoDup (map fst ranked) /\
       (forall d s, In (d, s) ranked <->
          (exists tok, In tok (tokenize_fn query) /\ d ∈ posting st tok) /\
          aggregate_score tokenize_fn st (tokenize_fn query) k1 b d = Ok s /\ 0 < s) /\
       ((0 <= limit)%Z -> (length res <= Z.to_nat limit)%nat)) /\
  ((forall t, In t (tokenize_fn query) -> tokenize_fn t = [t]) -> 0 < k1 -> 0 <= b <= 1 ->
     exists res, bm25_search tokenize_fn st query k1 b limit = Ok res).
Proof.
  unfold bm25_search. split; [|split].
  - intros Hq. by rewrite Hq.
  - intros res Hres. destruct (tokenize_fn query) as [|t toks] eqn:Hq.
    + injection Hres as <-. exists []. rewrite py_slice_to_nil.
      split; [done|]. split; [constructor|]. split; [apply NoDup_nil_2|].
      split; [|simpl; lia]. intros d s. simpl. naive_solver.
    + destruct (decide (candidate_set st (t :: toks) = ∅)) as [Hempty|Hne].
      * injection Hres as <-. exists []. rewrite py_slice_to_nil.
        split; [done|]. split; [constructor|]. split; [apply NoDup_nil_2|].
        split; [|simpl; lia]. intros d s. split; [intros []|].
        intros (Hc & _ & _). apply (elem_of_candidate_set st (t :: toks)) in Hc.
        rewrite Hempty in Hc. set_solver.
      * destruct (score_candidates tokenize_fn st (t :: toks) k1 b
                    (elements (candidate_set st (t :: toks)))) as [scores|e] eqn:Hsc;
          [|discriminate].
        rewrite result_bind_ok in Hres. injection Hres as <-.
        destruct (score_candidates_spec st (t :: toks) k1 b _ scores Hsc) as [Hin Hnd].
        exists (sort_desc scores). split; [done|].
        split; [apply sort_desc_sorted|]. split.
        { rewrite (Permutation_map fst (sort_desc_perm scores)). apply Hnd, NoDup_elements. }
        split; [|apply py_slice_to_length].
        intros d s. split.
        -- intros Hds. apply (Permutation_in _ (sort_desc_perm scores)), Hin in Hds.
           destruct Hds as (Hc & Ha & Hp). split; [|done].
           apply elem_of_candidate_set, elem_of_elements, list_elem_of_In, Hc.
        -- intros (Hc & Ha & Hp). apply (Permutation_in _ (Permutation_sym (sort_desc_perm scores))).
           apply Hin. split; [|done].
           apply list_elem_of_In, elem_of_elements, elem_of_candidate_set, Hc.
  - intros Hidem Hk1 Hb. destruct (tokenize_fn query) as [|t toks] eqn:Hq; [by eexists|].
    destruct (decide _); [by eexists|].
    destruct (score_candidates_no_error st (t :: toks) k1 b
                (elements (candidate_set st (t :: toks)))) as [scores Hs].
    { intros d. apply sum_scores_no_error. intros t' Ht'. apply bm25_no_error; auto. }
    rewrite Hs, result_bind_ok. by eexists.
Qed.

(** C4: [save] then [load] at the same location restores the four
    structures exactly, whatever the object held before [load]. *)
Theorem save_load_roundtrip st cache_dir fs st' :
  load cache_dir (save st cache_dir fs) st' = (st, None).
Proof.
  destruct (save_lookups st cache_dir fs) as (H1 & H2 & H3 & H4).
  unfold load. simpl.
  unfold path_exists, read_index, read_docmap, read_term_frequencies, read_doc_lengths.
  rewrite H1, H2, H3, H4. simpl. by destruct st.
Qed.

(** C5: when one of the four files is missing, [load] raises
    [FileNotFoundError] (the spec's NotFoundError) before assigning
    anything: the object keeps its four structures. *)
Theorem load_missing_component cache_dir fs st :
  fs !! index_path cache_dir = None \/ fs !! docmap_path cache_dir = None \/
  fs !! frequencies_path cache_dir = None \/ fs !! doc_lengths_path cache_dir = None ->
  load cache_dir fs st = (st, Some FileNotFoundError).
Proof.
  intros Hmiss. unfold load, path_exists. simpl.
  destruct Hmiss as [H | [H | [H | H]]]; rewrite H; simpl; by rewrite ?andb_false_r.
Qed.

End Proofs.

(** * Witnesses on the scenario corpus *)

Lemma scenario_reachable : reachable Utils.tokenize scenario_index.
Proof. apply reachable_build, reachable_fresh. Qed.

Lemma get_frequency_spec_witness :
  Utils.tokenize "red" = ["red"] /\
  get_frequency Utils.tokenize scenario_index 1 "red" = Ok 1%nat.
Proof.
  split; [reflexivity|].
  destruct (proj2 (get_frequency_spec Utils.tokenize scenario_index 1 "red") "red")
    as [H _]; [reflexivity|].
  rewrite H. vm_compute. reflexivity.
Defined.

Lemma build_frequency_consistency_witness :
  reachable Utils.tokenize scenario_index /\
  exists c, term_frequencies scenario_index !! 1%Z = Some c /\
    doc_lengths scenario_index !! 1%Z = Some (sum_values c) /\ sum_values c = 3%nat.
Proof.
  split; [exact scenario_reachable|].
  exists (default ∅ (term_frequencies scenario_index !! 1%Z)).
  assert (Hc : term_frequencies scenario_index !! 1%Z =
               Some (default ∅ (term_frequencies scenario_index !! 1%Z))).
  { vm_compute. reflexivity. }
  split; [exact Hc|]. split.
  - exact (build_frequency_consistency Utils.tokenize scenario_index scenario_reachable _ _ Hc).
  - vm_compute. reflexivity.
Defined.

Lemma build_ids_in_catalog_witness :
  reachable Utils.tokenize scenario_index /\
  (doc_freq scenario_index "red" <= doc_count scenario_index)%nat /\
  is_Some (docmap scenario_index !! 3%Z).
Proof.
  destruct (build_ids_in_catalog Utils.tokenize scenario_index scenario_reachable)
    as (Hp & _ & _ & Hdf).
  split; [exact scenario_reachable|]. split; [apply Hdf|].
  apply (Hp "fox"). vm_compute. set_solver.
Defined.

Lemma get_bm25_idf_spec_witness :
  reachable Utils.tokenize scenario_index /\
  exists v, get_bm25_idf Utils.tokenize scenario_index "red" = Ok v /\ 0 <= v.
Proof.
  destruct (get_bm25_idf_spec Utils.tokenize scenario_index "red") as (_ & Hval & Hpos).
  split; [exact scenario_reachable|].
  eexists. split; [apply Hval; reflexivity|].
  apply (Hpos scenario_reachable). apply Hval. reflexivity.
Defined.

Lemma get_bm25_idf_antitone_witness :
  exists v1 v2, get_bm25_idf Utils.tokenize scenario_index "blue" = Ok v1 /\
    get_bm25_idf Utils.tokenize scenario_index "red" = Ok v2 /\ v2 <= v1.
Proof.
  apply (get_bm25_idf_antitone Utils.tokenize scenario_index "blue" "red" "blue" "red");
    [reflexivity | reflexivity |].
  right. vm_compute. lia.
Defined.

Lemma load_missing_component_witness :
  load "cache" (save scenario_index "other" ∅) scenario_index =
  (scenario_index, Some FileNotFoundError).
Proof.
  apply load_missing_component. left. vm_compute. reflexivity.
Defined.

Lemma build_frame_and_accumulate_witness :
  docmap (build Utils.tokenize scenario_index [mkMovie 1 "blue fox" "jumps"]) !! 1%Z =
    Some (mkMovie 1 "blue fox" "jumps") /\
  tf_count (build Utils.tokenize scenario_index [mkMovie 1 "blue fox" "jumps"]) 1 "fox" = 2%nat.
Proof.
  destruct (build_frame_and_accumulate Utils.tokenize scenario_index
              [mkMovie 1 "blue fox" "jumps"] 1) as [_ Hin].
  destruct Hin as (Hdoc & _ & Htf & _ & _); [left; reflexivity|].
  split; [exact Hdoc|]. rewrite Htf. vm_compute. reflexivity.
Defined.

(** C9 as stated fails: building the same record twice doubles its
    length entry instead of replacing it with the value of the new input
    alone, and a record rebuilt with new text stays in the posting set of
    a token it no longer contains. *)
Lemma build_replaces_counterexample :
  doc_lengths (build Utils.tokenize (build Utils.tokenize empty_index
                 [mkMovie 1 "red fox" "runs"]) [mkMovie 1 "red fox" "runs"]) !! 1%Z = Some 6%nat /\
  doc_lengths (build Utils.tokenize empty_index [mkMovie 1 "red fox" "runs"]) !! 1%Z = Some 3%nat /\
  1%Z ∈ posting (build Utils.tokenize (build Utils.tokenize empty_index
                 [mkMovie 1 "red fox" "runs"]) [mkMovie 1 "blue" "cat"]) "red" /\
  1%Z ∉ posting (build Utils.tokenize empty_index [mkMovie 1 "blue" "cat"]) "red".
Proof.
  split; [vm_compute; reflexivity|]. split; [vm_compute; reflexivity|].
  split; vm_compute; set_solver.
Qed.

Lemma get_bm25_tf_spec_witness :
  get_bm25_tf Utils.tokenize scenario_index 42 "red" 1.5 0.75 = Ok 0.
Proof.
  apply (get_bm25_tf_spec Utils.tokenize scenario_index 42 "red" "red" 1.5 0.75);
    [reflexivity|]. left. vm_compute. reflexivity.
Defined.

(** C3 as stated fails: with [k1 = 0] and a token absent from a
    non-empty document, the denominator is zero and the division raises
    [ZeroDivisionError] instead of returning a value. *)
Lemma get_bm25_tf_counterexample :
  Utils.tokenize "dog" = ["dog"] /\
  default 0%nat (doc_lengths scenario_index !! 1%Z) = 3%nat /\
  get_avg_doc_length scenario_index <> 0 /\
  get_bm25_tf Utils.tokenize scenario_index 1 "dog" 0 0.75 = Err ZeroDivisionError.
Proof.
  assert (Hlen : default 0%nat (doc_lengths scenario_index !! 1%Z) = 3%nat).
  { vm_compute. reflexivity. }
  assert (Havg : get_avg_doc_length scenario_index <> 0).
  { unfold get_avg_doc_length. rewrite decide_False by (vm_compute; discriminate).
    assert (Hs : sum_values (doc_lengths scenario_index) = 9%nat) by (vm_compute; reflexivity).
    assert (Hn : size (doc_lengths scenario_index) = 3%nat) by (vm_compute; reflexivity).
    rewrite Hs, Hn. simpl. lra. }
  split; [reflexivity|]. split; [exact Hlen|]. split; [exact Havg|].
  apply (get_bm25_tf_zero_denominator _ _ _ _ "dog"); [reflexivity | lia | exact Havg |].
  assert (Htf : tf_count scenario_index 1 "dog" = 0%nat) by (vm_compute; reflexivity).
  rewrite Htf, Rmult_0_l. change (INR 0) with 0. lra.
Qed.

Lemma bm25_search_spec_witness :
  exists res, bm25_search Utils.tokenize scenario_index "red" 1 (1/2) 2 = Ok res.
Proof.
  apply (proj2 (proj2 (bm25_search_spec Utils.tokenize scenario_index "red" 1 (1/2) 2%Z))).
  - intros t Ht. assert (Hq : Utils.tokenize "red" = ["red"]) by reflexivity.
    rewrite Hq in Ht. destruct Ht as [<- | []]. reflexivity.
  - lra.
  - lra.
Defined.

(** C1 as worded fails on two counts: with [k1 = 0] a query token
    absent from a candidate makes the TF denominator zero and the
    search raises [ZeroDivisionError]; and a negative [limit] is a
    Python slice bound, so the result can have more than [limit]
    pairs. *)
Lemma bm25_search_counterexample :
  bm25_search Utils.tokenize single_index "red dog" 0 (3/4) 5 = Err ZeroDivisionError /\
  bm25_search Utils.tokenize single_index EmptyString 1 (3/4) (-1) = Ok [] /\
  ~ (Z.of_nat (length (@nil (Z * R))) <= -1)%Z.
Proof.
  split; [|split; [reflexivity | simpl; lia]].
  assert (Havg : get_avg_doc_length single_index <> 0).
  { unfold get_avg_doc_length. rewrite decide_False by (vm_compute; discriminate).
    assert (Hs : sum_values (doc_lengths single_index) = 2%nat) by (vm_compute; reflexivity).
    assert (Hn : size (doc_lengths single_index) = 1%nat) by (vm_compute; reflexivity).
    rewrite Hs, Hn. simpl. lra. }
  assert (Hlen : default 0%nat (doc_lengths single_index !! 1%Z) = 2%nat)
    by (vm_compute; reflexivity).
  assert (Hred : exists w, bm25 Utils.tokenize single_index 1 "red" 0 (3/4) = Ok w).
  { destruct (get_bm25_tf_nonzero_ok Utils.tokenize single_index 1 "red" "red" 0 (3/4))
      as [v Hv]; [reflexivity| |].
    - assert (Htf : tf_count single_index 1 "red" = 1%nat) by (vm_compute; reflexivity).
      rewrite Htf, Rmult_0_l. change (INR 1) with 1. lra.
    - by apply (bm25_tf_ok Utils.tokenize single_index 1 "red" "red" 0 (3/4) v). }
  assert (Hdog : bm25 Utils.tokenize single_index 1 "dog" 0 (3/4) = Err ZeroDivisionError).
  { apply (bm25_tf_err Utils.tokenize single_index 1 "dog" "dog"); [reflexivity|].
    apply (get_bm25_tf_zero_denominator _ _ _ _ "dog"); [reflexivity | lia | exact Havg |].
    assert (Htf : tf_count single_index 1 "dog" = 0%nat) by (vm_compute; reflexivity).
    rewrite Htf, Rmult_0_l. change (INR 0) with 0. lra. }
  destruct Hred as [w Hw].
  assert (Hq : Utils.tokenize "red dog" = ["red"; "dog"]) by reflexivity.
  assert (Hne : candidate_set single_index ["red"; "dog"] <> ∅).
  { intros He. pose proof (f_equal (fun X => bool_decide (1%Z ∈ X)) He) as Hb.
    vm_compute in Hb. discriminate. }
  assert (He : elements (candidate_set single_index ["red"; "dog"]) = [1%Z])
    by (vm_compute; reflexivity).
  unfold bm25_search. rewrite Hq. cbv beta iota zeta.
  rewrite decide_False by exact Hne. rewrite He.
  cbn [score_candidates]. unfold aggregate_score. cbn [sum_scores].
  rewrite Hw, result_bind_ok, Hdog. reflexivity.
Qed.

(** * Further properties of the code *)

(** ** [utils.tokenize] *)















(** ** Sums of a length table *)

Lemma sum_values_split_gen {K} `{Countable K} (m : gmap K nat) k :
  sum_values m = (default 0%nat (m !! k) + sum_values (delete k m))%nat.
Proof.
  destruct (m !! k) as [v|] eqn:Hk; simpl.
  - rewrite <- (insert_delete_id m k v Hk) at 1. unfold sum_values.
    rewrite map_fold_insert_L; [done | | apply lookup_delete_eq]. intros; lia.
  - by rewrite delete_id.
Qed.

Lemma sum_values_insert_add {K} `{Countable K} (m : gmap K nat) k n :
  sum_values (<[k := (default 0%nat (m !! k) + n)%nat]> m) = (sum_values m + n)%nat.
Proof.
  rewrite <- insert_delete_eq. unfold sum_values at 1.
  rewrite map_fold_insert_L; [| intros; lia | apply lookup_delete_eq].
  fold (sum_values (delete k m)). rewrite (sum_values_split_gen m k). lia.
Qed.

Lemma sum_values_lookup_le {K} `{Countable K} (m : gmap K nat) k :
  (default 0%nat (m !! k) <= sum_values m)%nat.
Proof. rewrite (sum_values_split_gen m k). lia. Qed.

(** ** Strictly sorted lists of ids *)

Lemma strongly_sorted_nodup_lt (l : list Z) :
  StronglySorted Z.le l -> NoDup l -> Sorted Z.lt l.
Proof.
  induction l as [|a l IH]; intros Hs Hnd; [constructor|].
  apply StronglySorted_inv in Hs as [Hs Hall]. apply NoDup_cons in Hnd as [Hnot Hnd].
  constructor; [by apply IH|]. destruct l as [|z l]; constructor.
  apply Forall_inv in Hall. assert (a <> z) by (intros ->; apply Hnot; left). lia.
Qed.

Section Extras.

Variable tokenize_fn : string -> list string.

Lemma build_step_length_table st m :
  doc_lengths (build_step tokenize_fn st m) =
  <[id m := (default 0%nat (doc_lengths st !! id m) + length (tokenize_fn (movie_text m)))%nat]>
    (doc_lengths st).
Proof.
  apply map_eq. intros x. rewrite build_step_lengths.
  case_bool_decide as Hx; [subst; by rewrite lookup_insert_eq | by rewrite lookup_insert_ne].
Qed.

(** X14: [build] adds to the total of the length table exactly the
    number of tokens of the texts it indexes, over all input records. *)
Theorem build_length_sum st movies :
  sum_values (doc_lengths (build tokenize_fn st movies)) =
  (sum_values (doc_lengths st) +
   sum_list_with (fun m => length (tokenize_fn (movie_text m))) movies)%nat.
Proof.
  revert st; induction movies as [|m movies IH]; intros st; [simpl; lia|].
  rewrite build_cons, IH, build_step_length_table, sum_values_insert_add. simpl. lia.
Qed.

Lemma reachable_posting_tf st :
  reachable tokenize_fn st -> forall d t, d ∈ posting st t <-> (0 < tf_count st d t)%nat.
Proof.
  induction 1 as [|st movies Hr IH]; intros d t.
  - unfold posting, tf_count; simpl. rewrite !lookup_empty. simpl. split; [set_solver | lia].
  - rewrite build_posting, build_tf_count, IH.
    rewrite (count_occ_In String.string_dec). lia.
Qed.

Lemma get_documents_elem st term tok rest x :
  tokenize_fn term = tok :: rest ->
  In x (get_documents tokenize_fn st term) <-> x ∈ posting st tok.
Proof.
  intros Htok. unfold get_documents, posting. rewrite Htok.
  split.
  - intros Hx. apply (Permutation_in _ (merge_sort_Permutation Z.le _)) in Hx.
    by apply list_elem_of_In, elem_of_elements in Hx.
  - intros Hx. apply (Permutation_in _ (Permutation_sym (merge_sort_Permutation Z.le _))).
    by apply list_elem_of_In, elem_of_elements.
Qed.

Lemma get_documents_sorted st term :
  Sorted Z.lt (get_documents tokenize_fn st term).
Proof.
  unfold get_documents. destruct (tokenize_fn term) as [|tok rest]; [constructor|].
  apply strongly_sorted_nodup_lt.
  - apply StronglySorted_merge_sort; [intros x y z; lia | intros x y; lia].
  - rewrite merge_sort_Permutation. apply NoDup_elements.
Qed.

(** ** The [search] command *)

Lemma search_inner_spec ids seen results seen' results' :
  search_inner ids seen results = (seen', results') ->
  (forall x, x ∈ seen <-> In x results) -> NoDup results -> (length results < 5)%nat ->
  (forall x, x ∈ seen' <-> In x results') /\ NoDup results' /\ (length results' <= 5)%nat /\
  (exists extra, results' = results ++ extra /\ forall x, In x extra -> In x ids) /\
  ((length results' < 5)%nat -> forall x, In x ids -> In x results').
Proof.
  revert seen results; induction ids as [|d ids IH]; intros seen results Heq Hseen Hnd Hlen;
    simpl in Heq.
  - injection Heq as <- <-. split; [done|]. split; [done|]. split; [lia|].
    split; [exists []; by rewrite app_nil_r|]. intros _ x [].
  - destruct (decide (d ∈ seen)) as [Hd|Hd].
    + destruct (IH _ _ Heq Hseen Hnd Hlen) as (H1 & H2 & H3 & (extra & Hext & Hin) & H5).
      split; [done|]. split; [done|]. split; [done|]. split.
      * exists extra. split; [done|]. intros x Hx. right. by apply Hin.
      * intros Hl x [<-|Hx]; [|by apply H5]. rewrite Hext. apply in_or_app. left. by apply Hseen.
    + assert (Hnd' : NoDup (results ++ [d])).
      { apply NoDup_app. split; [done|]. split; [|apply NoDup_singleton].
        intros x Hx Hx'. apply list_elem_of_singleton in Hx'. subst x.
        apply Hd, Hseen, list_elem_of_In, Hx. }
      assert (Hseen' : forall x, x ∈ {[d]} ∪ seen <-> In x (results ++ [d])).
      { intros x. rewrite elem_of_union, elem_of_singleton, Hseen, in_app_iff. simpl. naive_solver. }
      destruct (Nat.eq_dec (length (results ++ [d])) 5%nat) as [H5|H5].
      * injection Heq as <- <-. split; [done|]. split; [done|]. split; [lia|].
        split; [|lia]. exists [d]. split; [done|]. intros x [<-|[]]. by left.
      * assert (Hlen' : (length (results ++ [d]) < 5)%nat)
          by (rewrite length_app in *; simpl in *; lia).
        destruct (IH _ _ Heq Hseen' Hnd' Hlen') as (H1 & H2 & H3 & (extra & Hext & Hin) & H6).
        split; [done|]. split; [done|]. split; [done|]. split.
        -- exists (d :: extra). split; [by rewrite Hext, <- app_assoc|].
           intros x [<-|Hx]; [by left | right; by apply Hin].
        -- intros Hl x [<-|Hx]; [|by apply H6].
           rewrite Hext. apply in_or_app. left. apply in_or_app. right. by left.
Qed.

Lemma search_outer_spec st toks seen results r :
  search_outer tokenize_fn st toks seen results = r ->
  (forall x, x ∈ seen <-> In x results) -> NoDup results -> (length results < 5)%nat ->
  NoDup r /\ (length r <= 5)%nat /\
  (exists extra, r = results ++ extra /\
     forall x, In x extra -> exists q, In q toks /\ In x (get_documents tokenize_fn st q)) /\
  ((length r < 5)%nat ->
     forall q x, In q toks -> In x (get_documents tokenize_fn st q) -> In x r).
Proof.
  revert seen results; induction toks as [|q toks IH]; intros seen results Heq Hseen Hnd Hlen;
    cbn [search_outer] in Heq.
  - subst r. split; [done|]. split; [lia|].
    split; [exists []; by rewrite app_nil_r|]. intros _ q x [].
  - destruct (search_inner (get_documents tokenize_fn st q) seen results) as [seen' res'] eqn:Hi.
    destruct (search_inner_spec _ _ _ _ _ Hi Hseen Hnd Hlen)
      as (H1 & H2 & H3 & (extra & Hext & Hin) & H5).
    destruct (Nat.eq_dec (length res') 5%nat) as [Hl|Hl].
    + subst r. split; [done|]. split; [done|]. split; [|lia].
      exists extra. split; [done|]. intros x Hx. exists q. split; [by left | by apply Hin].
    + destruct (IH _ _ Heq H1 H2 ltac:(lia)) as (G1 & G2 & (extra' & Hext' & Hin') & G4).
      split; [done|]. split; [done|]. split.
      * exists (extra ++ extra'). split; [by rewrite Hext', Hext, app_assoc|].
        intros x [Hx|Hx]%in_app_iff.
        -- exists q. split; [by left | by apply Hin].
        -- destruct (Hin' x Hx) as (q' & Hq' & Hx'). exists q'. split; [by right | done].
      * intros Hlr q' x [<-|Hq'] Hx; [|by apply (G4 Hlr q')].
        rewrite Hext'. apply in_or_app. left. apply H5; [lia | done].
Qed.

(** X5: [get_documents] returns [[]] when the term has no token;
    otherwise it returns, in strictly increasing order, exactly the
    posting set of the term's first token (later tokens are ignored). *)
Theorem get_documents_spec st term :
  (tokenize_fn term = [] -> get_documents tokenize_fn st term = []) /\
  (forall tok rest, tokenize_fn term = tok :: rest ->
     Sorted Z.lt (get_documents tokenize_fn st term) /\
     forall x, In x (get_documents tokenize_fn st term) <-> x ∈ posting st tok).
Proof.
  split.
  - intros Htok. unfold get_documents. by rewrite Htok.
  - intros tok rest Htok. split; [apply get_documents_sorted|].
    intros x. by apply get_documents_elem with (rest := rest).
Qed.

(** X6: on an index built from a fresh one, a document is in a token's
    posting set exactly when its count for that token is positive; so
    for a single-token term, [get_documents] lists exactly the documents
    for which [get_frequency] returns a positive count. *)
Theorem posting_iff_positive_frequency st :
  reachable tokenize_fn st ->
  (forall d t, d ∈ posting st t <-> (0 < tf_count st d t)%nat) /\
  (forall term tok d, tokenize_fn term = [tok] ->
     In d (get_documents tokenize_fn st term) <->
     exists n, get_frequency tokenize_fn st d term = Ok n /\ (0 < n)%nat).
Proof.
  intros Hr. split; [by apply reachable_posting_tf|].
  intros term tok d Htok.
  rewrite (get_documents_elem st term tok [] d Htok), (reachable_posting_tf st Hr),
    (get_frequency_single tokenize_fn st d term tok Htok).
  split; [intros Hpos; by exists (tf_count st d tok)|].
  intros (n & Hn & Hpos). by injection Hn as <-.
Qed.

(** X10: the [search] command prints at most 5 distinct ids, each
    returned by [get_documents] for one of the query tokens; when it
    prints fewer than 5, it prints every id [get_documents] returns for
    every query token. *)
Theorem search_command_spec st query :
  NoDup (search_command tokenize_fn st query) /\
  (length (search_command tokenize_fn st query) <= 5)%nat /\
  (forall x, In x (search_command tokenize_fn st query) ->
     exists q, In q (tokenize_fn query) /\ In x (get_documents tokenize_fn st q)) /\
  ((length (search_command tokenize_fn st query) < 5)%nat ->
     forall q x, In q (tokenize_fn query) -> In x (get_documents tokenize_fn st q) ->
     In x (search_command tokenize_fn st query)).
Proof.
  destruct (search_outer_spec st (tokenize_fn query) ∅ [] _ eq_refl)
    as (H1 & H2 & (extra & Hext & Hin) & H4).
  - intros x. split; [set_solver | intros []].
  - apply NoDup_nil_2.
  - simpl. lia.
  - unfold search_command. split; [done|]. split; [done|]. split; [|done].
    rewrite Hext. apply Hin.
Qed.

(** X11: on an index built from a fresh one, every id the [search]
    command prints has a catalog entry, so [idx.docmap[doc_id]] never
    raises [KeyError]. *)
Theorem search_command_in_catalog st query :
  reachable tokenize_fn st ->
  forall x, In x (search_command tokenize_fn st query) -> is_Some (docmap st !! x).
Proof.
  intros Hr x Hx.
  destruct (search_outer_spec st (tokenize_fn query) ∅ [] _ eq_refl)
    as (_ & _ & (extra & Hext & Hin) & _).
  - intros y. split; [set_solver | intros []].
  - apply NoDup_nil_2.
  - simpl. lia.
  - unfold search_command in Hx. rewrite Hext in Hx. simpl in Hx.
    destruct (Hin x Hx) as (q & _ & Hq).
    destruct (tokenize_fn q) as [|tok rest] eqn:Htok.
    { unfold get_documents in Hq. rewrite Htok in Hq. done. }
    apply (get_documents_elem st q tok rest x Htok) in Hq.
    destruct (reachable_contained tokenize_fn st Hr) as (Hp & _ & _).
    by apply elem_of_dom, (Hp tok).
Qed.

(** ** Scores *)

Lemma tf_ratio_bounds tf k1 norm :
  0 <= tf -> 0 < k1 -> 0 < norm ->
  0 <= tf * (k1 + 1) / (tf + k1 * norm) < k1 + 1 /\
  (0 < tf -> 0 < tf * (k1 + 1) / (tf + k1 * norm)).
Proof.
  intros Htf Hk1 Hn.
  assert (Hkn : 0 < k1 * norm) by (apply Rmult_lt_0_compat; lra).
  assert (Hden : 0 < tf + k1 * norm) by lra.
  replace (tf * (k1 + 1) / (tf + k1 * norm)) with ((k1 + 1) * (tf / (tf + k1 * norm)))
    by (field; lra).
  assert (Hq0 : 0 <= tf / (tf + k1 * norm)).
  { unfold Rdiv. apply Rmult_le_pos; [lra|]. left. by apply Rinv_0_lt_compat. }
  assert (Hq1 : tf / (tf + k1 * norm) < 1).
  { replace (tf / (tf + k1 * norm)) with (1 - k1 * norm / (tf + k1 * norm)) by (field; lra).
    pose proof (Rdiv_lt_0_compat _ _ Hkn Hden). lra. }
  split; [split; nra|].
  intros Hpos. pose proof (Rdiv_lt_0_compat _ _ Hpos Hden). nra.
Qed.

Lemma length_norm_pos b r : 0 <= b <= 1 -> 0 < r -> 0 < 1 - b + b * r.
Proof.
  intros Hb Hr. destruct (Req_dec_T b 0) as [-> | Hb0]; [lra|].
  assert (0 < b * r) by (apply Rmult_lt_0_compat; lra). lra.
Qed.

Lemma get_bm25_tf_value st doc_id term tok k1 b :
  tokenize_fn term = [tok] -> 0 < k1 -> 0 <= b <= 1 ->
  exists v, get_bm25_tf tokenize_fn st doc_id term k1 b = Ok v /\ 0 <= v < k1 + 1 /\
    (default 0%nat (doc_lengths st !! doc_id) <> 0%nat -> get_avg_doc_length st <> 0 ->
     (0 < tf_count st doc_id tok)%nat -> 0 < v).
Proof.
  intros Htok Hk1 Hb. rewrite (get_bm25_tf_unfold tokenize_fn st doc_id term tok k1 b Htok).
  destruct (Nat.eq_dec _ 0%nat) as [Hl|Hl].
  { exists 0. split; [done|]. split; [lra|]. intros Hl'. done. }
  destruct (Req_dec_T _ 0) as [Ha|Ha].
  { exists 0. split; [done|]. split; [lra|]. intros _ Ha'. done. }
  pose proof (get_avg_doc_length_nonneg st) as Hnn.
  assert (Hr : 0 < INR (default 0%nat (doc_lengths st !! doc_id)) / get_avg_doc_length st).
  { apply Rdiv_lt_0_compat; [apply lt_0_INR; lia | lra]. }
  pose proof (length_norm_pos b _ Hb Hr) as Hnorm.
  destruct (tf_ratio_bounds (INR (tf_count st doc_id tok)) k1 _ (pos_INR _) Hk1 Hnorm)
    as [Hbounds Hpos].
  unfold py_div. destruct (Req_dec_T _ 0) as [Hz|Hz].
  { pose proof (pos_INR (tf_count st doc_id tok)).
    pose proof (Rmult_lt_0_compat _ _ Hk1 Hnorm). lra. }
  eexists. split; [reflexivity|]. split; [exact Hbounds|].
  intros _ _ Htf. apply Hpos. by apply lt_0_INR.
Qed.

(** X4: BM25 term-frequency saturation. With [k1 > 0] and
    [0 <= b <= 1], [get_bm25_tf] of a single-token term never raises,
    on any index state, and its value lies in [[0, k1 + 1)]. *)
Theorem get_bm25_tf_saturation st doc_id term tok k1 b :
  tokenize_fn term = [tok] -> 0 < k1 -> 0 <= b <= 1 ->
  exists v, get_bm25_tf tokenize_fn st doc_id term k1 b = Ok v /\ 0 <= v < k1 + 1.
Proof.
  intros Htok Hk1 Hb.
  destruct (get_bm25_tf_value st doc_id term tok k1 b Htok Hk1 Hb) as (v & Hv & Hbd & _).
  by exists v.
Qed.

Lemma reachable_idf_value st term tok :
  reachable tokenize_fn st -> tokenize_fn term = [tok] ->
  exists v, get_bm25_idf tokenize_fn st term = Ok v /\ 0 <= v /\
    (doc_count st <> 0%nat -> 0 < v).
Proof.
  intros Hr Htok. rewrite (get_bm25_idf_single tokenize_fn st term tok Htok).
  destruct (Nat.eq_dec (doc_count st) 0%nat) as [Hn|Hn].
  { exists 0. split; [done|]. split; [lra|]. done. }
  pose proof (reachable_df_le tokenize_fn st tok Hr) as Hle.
  eexists. split; [reflexivity|].
  assert (Hgt : 1 < (IZR (Z.of_nat (doc_count st) - Z.of_nat (doc_freq st tok)) + 0.5)
                    / (INR (doc_freq st tok) + 0.5) + 1.0).
  { rewrite idf_arg_eq. apply le_INR in Hle.
    assert (Hd : 0 < INR (doc_freq st tok) + 0.5) by (pose proof (pos_INR (doc_freq st tok)); lra).
    apply (Rmult_lt_reg_r (INR (doc_freq st tok) + 0.5)); [exact Hd|].
    unfold Rdiv. rewrite Rmult_assoc, Rinv_l by lra. lra. }
  assert (Hln : 0 < ln ((IZR (Z.of_nat (doc_count st) - Z.of_nat (doc_freq st tok)) + 0.5)
                    / (INR (doc_freq st tok) + 0.5) + 1.0)).
  { rewrite <- ln_1. apply ln_increasing; lra. }
  split; [lra|]. intros _. exact Hln.
Qed.

(** X7: on an index built from a fresh one, the IDF of a single-token
    term is strictly positive as soon as the catalog is not empty. *)
Theorem get_bm25_idf_positive st term tok :
  reachable tokenize_fn st -> tokenize_fn term = [tok] -> doc_count st <> 0%nat ->
  exists v, get_bm25_idf tokenize_fn st term = Ok v /\ 0 < v.
Proof.
  intros Hr Htok Hn. destruct (reachable_idf_value st term tok Hr Htok) as (v & Hv & _ & Hpos).
  exists v. split; [done|]. by apply Hpos.
Qed.

(** A document with a positive count on an index built from a fresh
    one: the catalog, its length and the average length are nonzero. *)
Lemma reachable_doc_facts st d tok :
  reachable tokenize_fn st -> (0 < tf_count st d tok)%nat ->
  doc_count st <> 0%nat /\ default 0%nat (doc_lengths st !! d) <> 0%nat /\
  get_avg_doc_length st <> 0.
Proof.
  intros Hr Htf.
  pose proof (reachable_freq_consistent tokenize_fn st Hr d) as Hfc.
  destruct (reachable_contained tokenize_fn st Hr) as (_ & Htfdom & _).
  unfold tf_count in Htf. destruct (term_frequencies st !! d) as [c|] eqn:Hc; [|lia].
  simpl in Hfc.
  assert (Hlen : default 0%nat (doc_lengths st !! d) = sum_values c) by (rewrite <- Hfc; done).
  pose proof (sum_values_lookup_le c tok) as Hle.
  split; [|split].
  - assert (Hd : d ∈ dom (docmap st)) by (apply Htfdom, elem_of_dom; by exists c).
    apply elem_of_dom in Hd as [m Hm]. unfold doc_count. intros Hs.
    apply map_size_empty_iff in Hs. rewrite Hs, lookup_empty in Hm. discriminate.
  - lia.
  - unfold get_avg_doc_length. case_decide as He.
    { rewrite He, lookup_empty in Hfc. discriminate. }
    pose proof (sum_values_lookup_le (doc_lengths st) d) as Hle2.
    assert (Hsz : size (doc_lengths st) <> 0%nat) by (by apply map_size_non_empty_iff).
    assert (0 < INR (sum_values (doc_lengths st))) by (apply lt_0_INR; lia).
    assert (0 < INR (size (doc_lengths st))) by (apply lt_0_INR; lia).
    pose proof (Rdiv_lt_0_compat _ _ H H0). lra.
Qed.

Lemma bm25_value st d t tok k1 b :
  reachable tokenize_fn st -> tokenize_fn t = [tok] -> 0 < k1 -> 0 <= b <= 1 ->
  exists v, bm25 tokenize_fn st d t k1 b = Ok v /\ 0 <= v /\ (d ∈ posting st tok -> 0 < v).
Proof.
  intros Hr Htok Hk1 Hb.
  destruct (reachable_idf_value st t tok Hr Htok) as (i & Hi & Hi0 & Hipos).
  destruct (get_bm25_tf_value st d t tok k1 b Htok Hk1 Hb) as (f & Hf & [Hf0 _] & Hfpos).
  exists (i * f). unfold bm25. rewrite Hi, result_bind_ok, Hf, result_bind_ok.
  split; [done|]. split; [by apply Rmult_le_pos|].
  intros Hd. apply (reachable_posting_tf st Hr) in Hd.
  destruct (reachable_doc_facts st d tok Hr Hd) as (Hn & Hl & Ha).
  apply Rmult_lt_0_compat; [by apply Hipos | by apply Hfpos].
Qed.

Lemma sum_scores_bounds st d toks k1 b total :
  (forall t, In t toks -> exists v, bm25 tokenize_fn st d t k1 b = Ok v /\ 0 <= v) ->
  exists s, sum_scores tokenize_fn st d toks k1 b total = Ok s /\ total <= s /\
    ((exists t, In t toks /\ forall v, bm25 tokenize_fn st d t k1 b = Ok v -> 0 < v) ->
     total < s).
Proof.
  revert total; induction toks as [|t toks IH]; intros total Hok; simpl.
  - exists total. split; [done|]. split; [lra|]. intros (t & [] & _).
  - destruct (Hok t (or_introl eq_refl)) as (v & Hv & Hv0). rewrite Hv, result_bind_ok.
    destruct (IH (total + v)) as (s & Hs & Hle & Hlt); [intros t' Ht'; apply Hok; by right|].
    exists s. split; [done|]. split; [lra|].
    intros (t' & [<- | Ht'] & Hpos).
    + specialize (Hpos v Hv). lra.
    + assert (total + v < s) by (apply Hlt; eauto). lra.
Qed.

(** X8: on an index built from a fresh one, with [k1 > 0],
    [0 <= b <= 1] and query tokens that tokenize to themselves,
    [bm25_search] returns [ranked[:limit]] where [ranked] holds every
    candidate (a document in the posting set of some query token)
    exactly once, by decreasing score: the [total > 0.0] filter never
    drops a candidate. *)
Theorem bm25_search_keeps_all_candidates st query k1 b limit :
  reachable tokenize_fn st -> (forall t, In t (tokenize_fn query) -> tokenize_fn t = [t]) ->
  0 < k1 -> 0 <= b <= 1 ->
  exists ranked, bm25_search tokenize_fn st query k1 b limit = Ok (py_slice_to ranked limit) /\
    Sorted score_desc ranked /\ NoDup (map fst ranked) /\
    (forall d, In d (map fst ranked) <->
       exists tok, In tok (tokenize_fn query) /\ d ∈ posting st tok).
Proof.
  intros Hr Hidem Hk1 Hb. revert Hidem. unfold bm25_search.
  destruct (tokenize_fn query) as [|t0 toks] eqn:Hq; intros Hidem.
  - exists []. rewrite py_slice_to_nil. split; [done|]. split; [constructor|].
    split; [apply NoDup_nil_2|]. intros d. simpl. split; [intros [] | intros (? & [] & _)].
  - assert (Hbm : forall d t, In t (t0 :: toks) ->
      exists v, bm25 tokenize_fn st d t k1 b = Ok v /\ 0 <= v /\ (d ∈ posting st t -> 0 < v)).
    { intros d t Ht. apply (bm25_value st d t t); auto. }
    assert (Hsum : forall d, exists s,
      sum_scores tokenize_fn st d (t0 :: toks) k1 b 0 = Ok s /\ 0 <= s /\
      ((exists t, In t (t0 :: toks) /\ forall v, bm25 tokenize_fn st d t k1 b = Ok v -> 0 < v) ->
       0 < s)).
    { intros d. apply sum_scores_bounds. intros t Ht.
      destruct (Hbm d t Ht) as (v & Hv & Hv0 & _). eauto. }
    destruct (decide (candidate_set st (t0 :: toks) = ∅)) as [He|Hne].
    + exists []. rewrite py_slice_to_nil. split; [done|]. split; [constructor|].
      split; [apply NoDup_nil_2|]. intros d. split; [intros []|].
      intros Hc. assert (Hd : d ∈ candidate_set st (t0 :: toks))
        by (apply (elem_of_candidate_set tokenize_fn); exact Hc).
      rewrite He in Hd. set_solver.
    + destruct (score_candidates_no_error tokenize_fn st (t0 :: toks) k1 b
                  (elements (candidate_set st (t0 :: toks)))) as [scores Hs].
      { intros d. destruct (Hsum d) as (s & Hs & _). by exists s. }
      rewrite Hs, result_bind_ok. exists (sort_desc scores).
      split; [done|]. split; [apply sort_desc_sorted|].
      destruct (score_candidates_spec tokenize_fn st (t0 :: toks) k1 b _ scores Hs) as [Hin Hnd].
      split.
      { rewrite (Permutation_map fst (sort_desc_perm scores)). apply Hnd, NoDup_elements. }
      intros d. rewrite in_map_iff. split.
      * intros ([d' s] & Heq & Hds). simpl in Heq; subst d'.
        apply (Permutation_in _ (sort_desc_perm scores)), Hin in Hds as (Hc & _ & _).
        apply (elem_of_candidate_set tokenize_fn), elem_of_elements, list_elem_of_In, Hc.
      * intros Hc. pose proof Hc as (tok & Htok & Hd).
        destruct (Hsum d) as (s & Hs' & _ & Hpos).
        exists (d, s). split; [done|].
        apply (Permutation_in _ (Permutation_sym (sort_desc_perm scores))), Hin.
        split; [apply list_elem_of_In, elem_of_elements, (elem_of_candidate_set tokenize_fn), Hc|].
        split; [exact Hs'|]. apply Hpos. exists tok. split; [done|].
        intros v Hv. destruct (Hbm d tok Htok) as (v' & Hv' & _ & Hp).
        rewrite Hv in Hv'. injection Hv' as <-. by apply Hp.
Qed.

Lemma bm25_search_no_error st query k1 b limit :
  (forall t, In t (tokenize_fn query) -> tokenize_fn t = [t]) -> 0 < k1 -> 0 <= b <= 1 ->
  exists res, bm25_search tokenize_fn st query k1 b limit = Ok res.
Proof.
  intros Hidem Hk1 Hb. revert Hidem. unfold bm25_search.
  destruct (tokenize_fn query) as [|t toks] eqn:Hq; intros Hidem; [by eexists|].
  destruct (decide _); [by eexists|].
  destruct (score_candidates_no_error tokenize_fn st (t :: toks) k1 b
              (elements (candidate_set st (t :: toks)))) as [scores Hs].
  { intros d. apply sum_scores_no_error. intros t' Ht'. apply bm25_no_error; auto. }
  rewrite Hs, result_bind_ok. by eexists.
Qed.

Lemma py_slice_to_in {A} (l : list A) limit x : In x (py_slice_to l limit) -> In x l.
Proof.
  unfold py_slice_to. intros Hx.
  destruct (Z.leb 0 limit); [rewrite <- (firstn_skipn (Z.to_nat limit) l) | 
    rewrite <- (firstn_skipn (Z.to_nat (Z.of_nat (length l) + limit)) l)];
    apply in_or_app; by left.
Qed.

(** X9: on an index built from a fresh one, every id [bm25_search]
    returns has a catalog entry, so the [bm25search] command always
    prints the document's title, never the [Doc <id>] fallback. *)
Theorem bm25_search_results_in_catalog st query k1 b limit res :
  reachable tokenize_fn st -> bm25_search tokenize_fn st query k1 b limit = Ok res ->
  forall d s, In (d, s) res -> is_Some (docmap st !! d).
Proof.
  intros Hr Hres d s Hds. destruct (reachable_contained tokenize_fn st Hr) as (Hp & _ & _).
  revert Hres. unfold bm25_search. destruct (tokenize_fn query) as [|t toks] eqn:Hq.
  { intros Hres. injection Hres as <-. done. }
  destruct (decide _) as [He|Hne]. { intros Hres. injection Hres as <-. done. }
  destruct (score_candidates tokenize_fn st (t :: toks) k1 b
              (elements (candidate_set st (t :: toks)))) as [scores|e] eqn:Hsc;
    [|discriminate].
  rewrite result_bind_ok. intros Hres. injection Hres as <-.
  apply py_slice_to_in, (Permutation_in _ (sort_desc_perm scores)) in Hds.
  destruct (score_candidates_spec tokenize_fn st _ k1 b _ scores Hsc) as [Hin _].
  apply Hin in Hds as (Hc & _ & _).
  apply list_elem_of_In, elem_of_elements, (elem_of_candidate_set tokenize_fn) in Hc as (tok & _ & Hd).
  by apply elem_of_dom, (Hp tok).
Qed.

(** ** The [idf] and [tfidf] commands of the CLI *)

Lemma cli_py_div n df :
  py_div (INR (n + 1)%nat) (INR (df + 1)%nat) = Ok (INR (n + 1)%nat / INR (df + 1)%nat).
Proof.
  unfold py_div. destruct (Req_dec_T _ 0) as [H|]; [|done].
  exfalso. rewrite plus_INR in H. simpl in H. pose proof (pos_INR df). lra.
Qed.

Lemma cli_ratio_pos n df : 0 < INR (n + 1)%nat / INR (df + 1)%nat.
Proof. apply Rdiv_lt_0_compat; apply lt_0_INR; lia. Qed.

Lemma cli_ratio_ln_nonneg n df :
  (df <= n)%nat -> 0 <= ln (INR (n + 1)%nat / INR (df + 1)%nat).
Proof.
  intros H. rewrite <- ln_1.
  assert (Hd : 0 < INR (df + 1)%nat) by (apply lt_0_INR; lia).
  assert (Hle : INR (df + 1)%nat <= INR (n + 1)%nat) by (apply le_INR; lia).
  assert (Hge : 1 <= INR (n + 1)%nat / INR (df + 1)%nat).
  { apply (Rmult_le_reg_r (INR (df + 1)%nat)); [exact Hd|].
    unfold Rdiv. rewrite Rmult_assoc, Rinv_l, Rmult_1_r by lra. lra. }
  destruct Hge as [Hlt | Heq]; [left; apply ln_increasing; lra | rewrite <- Heq; lra].
Qed.

(** The [idf] command prints an error message unless the term is a
    single token; on a single token it prints [0] when the token occurs
    in no document or the index is empty, and [ln ((N + 1) / (DF + 1))]
    otherwise, never raising. On an index built by [build] the printed
    value is non-negative. *)
Theorem idf_command_spec st term :
  ((forall t, tokenize_fn term <> [t]) -> idf_command tokenize_fn st term = ErrorMessage) /\
  (forall tok, tokenize_fn term = [tok] ->
     idf_command tokenize_fn st term =
       ShownValue (if Nat.eqb (doc_freq st tok) 0 || Nat.eqb (doc_count st) 0 then 0
                   else ln (INR (doc_count st + 1)%nat / INR (doc_freq st tok + 1)%nat))) /\
  (reachable tokenize_fn st ->
     forall v, idf_command tokenize_fn st term = ShownValue v -> 0 <= v).
Proof.
  split; [|split].
  - intros Hn. unfold idf_command.
    destruct (tokenize_fn term) as [|t [|t' r]]; [done| |done]. by destruct (Hn t).
  - intros tok Htok. unfold idf_command. rewrite Htok. cbv beta iota zeta.
    destruct (_ || _); [done|].
    rewrite cli_py_div, result_bind_ok. cbv beta. by rewrite py_log_pos by apply cli_ratio_pos.
  - intros Hr v. unfold idf_command.
    destruct (tokenize_fn term) as [|tok [|t' r]]; [done| |done]. cbv beta iota zeta.
    destruct (_ || _); [intros [= <-]; lra|].
    rewrite cli_py_div, result_bind_ok. cbv beta. rewrite py_log_pos by apply cli_ratio_pos.
    intros [= <-]. apply cli_ratio_ln_nonneg, (reachable_df_le tokenize_fn st tok Hr).
Qed.

(** The [tfidf] command prints an error message unless the term is a
    single token; on a single token it prints the token's count in the
    document times [ln ((N + 1) / (DF + 1))], never raising, also for an
    unknown document (count 0). On an index built by [build] the printed
    value is non-negative. *)
Theorem tfidf_command_spec st doc_id term :
  ((forall t, tokenize_fn term <> [t]) ->
     tfidf_command tokenize_fn st doc_id term = ErrorMessage) /\
  (forall tok, tokenize_fn term = [tok] ->
     tfidf_command tokenize_fn st doc_id term =
       ShownValue (INR (tf_count st doc_id tok) *
                   ln (INR (doc_count st + 1)%nat / INR (doc_freq st tok + 1)%nat))) /\
  (reachable tokenize_fn st ->
     forall v, tfidf_command tokenize_fn st doc_id term = ShownValue v -> 0 <= v).
Proof.
  split; [|split].
  - intros Hn. unfold tfidf_command, get_frequency.
    destruct (tokenize_fn term) as [|t [|t' r]]; [done| |done]. by destruct (Hn t).
  - intros tok Htok. unfold tfidf_command.
    rewrite (get_frequency_single tokenize_fn st doc_id term tok Htok), Htok.
    cbv beta iota zeta.
    rewrite cli_py_div, result_bind_ok. cbv beta. rewrite py_log_pos by apply cli_ratio_pos.
    by rewrite result_bind_ok.
  - intros Hr v. unfold tfidf_command.
    destruct (tokenize_fn term) as [|tok [|t' r]] eqn:Htok.
    + unfold get_frequency. by rewrite Htok.
    + rewrite (get_frequency_single tokenize_fn st doc_id term tok Htok).
      cbv beta iota zeta.
      rewrite cli_py_div, result_bind_ok. cbv beta. rewrite py_log_pos by apply cli_ratio_pos.
      rewrite result_bind_ok. intros [= <-].
      apply Rmult_le_pos; [apply pos_INR|].
      apply cli_ratio_ln_nonneg, (reachable_df_le tokenize_fn st tok Hr).
    + unfold get_frequency. by rewrite Htok.
Qed.

End Extras.


(** ** Evaluations of the further properties on concrete inputs *)




Lemma get_bm25_tf_saturation_witness :
  exists v, get_bm25_tf Utils.tokenize scenario_index 1 "fox" 1 (1/2) = Ok v /\ 0 <= v < 1 + 1.
Proof.
  apply (get_bm25_tf_saturation Utils.tokenize scenario_index 1 "fox" "fox" 1 (1/2));
    [reflexivity | lra | lra].
Defined.

Lemma posting_iff_positive_frequency_witness :
  (1%Z ∈ posting scenario_index "fox" <-> (0 < tf_count scenario_index 1 "fox")%nat).
Proof.
  apply (proj1 (posting_iff_positive_frequency Utils.tokenize scenario_index scenario_reachable)).
Defined.

Lemma get_bm25_idf_positive_witness :
  exists v, get_bm25_idf Utils.tokenize scenario_index "fox" = Ok v /\ 0 < v.
Proof.
  assert (Hn : doc_count scenario_index = 3%nat) by (vm_compute; reflexivity).
  apply (get_bm25_idf_positive Utils.tokenize scenario_index "fox" "fox" scenario_reachable);
    [reflexivity | lia].
Defined.

Lemma bm25_search_keeps_all_candidates_witness :
  exists ranked,
    bm25_search Utils.tokenize scenario_index "red fox" 1 (1/2) 5 = Ok (py_slice_to ranked 5) /\
    Sorted score_desc ranked /\ NoDup (map fst ranked) /\
    (forall d, In d (map fst ranked) <->
       exists tok, In tok (Utils.tokenize "red fox") /\ d ∈ posting scenario_index tok).
Proof.
  apply (bm25_search_keeps_all_candidates Utils.tokenize scenario_index "red fox" 1 (1/2) 5
           scenario_reachable); [|lra|lra].
  intros t Ht. assert (Hq : Utils.tokenize "red fox" = ["red"; "fox"]) by reflexivity.
  rewrite Hq in Ht. destruct Ht as [<- | [<- | []]]; reflexivity.
Defined.

Lemma bm25_search_results_in_catalog_witness :
  exists res, bm25_search Utils.tokenize scenario_index "red fox" 1 (1/2) 5 = Ok res /\
    forall d s, In (d, s) res -> is_Some (docmap scenario_index !! d).
Proof.
  destruct (bm25_search_no_error Utils.tokenize scenario_index "red fox" 1 (1/2) 5)
    as [res Hres]; [|lra|lra|].
  - intros t Ht. assert (Hq : Utils.tokenize "red fox" = ["red"; "fox"]) by reflexivity.
    rewrite Hq in Ht. destruct Ht as [<- | [<- | []]]; reflexivity.
  - exists res. split; [exact Hres|].
    exact (bm25_search_results_in_catalog Utils.tokenize scenario_index "red fox" 1 (1/2) 5
             res scenario_reachable Hres).
Defined.

Lemma search_command_in_catalog_witness :
  In 2%Z (search_command Utils.tokenize scenario_index "red") /\
  is_Some (docmap scenario_index !! 2%Z).
Proof.
  assert (Hs : search_command Utils.tokenize scenario_index "red" = [1%Z; 2%Z])
    by (vm_compute; reflexivity).
  assert (Hin : In 2%Z (search_command Utils.tokenize scenario_index "red"))
    by (rewrite Hs; right; left; reflexivity).
  split; [exact Hin|].
  exact (search_command_in_catalog Utils.tokenize scenario_index "red" scenario_reachable 2%Z Hin).
Defined.
